(** * The LRU-K replacer of the buffer pool (src/buffer/lru_k_replacer.cpp)

    A shallow embedding of [LRUKReplacer] and the proofs of its
    bookkeeping invariants.  Every member function becomes a function from
    the object's state to an outcome: a normal return, a thrown
    [std::exception] (with the state the throw leaves behind), or undefined
    behaviour of the C++ containers. *)

From Stdlib Require Import ZArith Lia.
From stdpp Require Import base option list gmap sorting.

Local Open Scope Z_scope.

(** ** Machine integers *)

(** [size_t] is an unsigned 64-bit integer: [++] and [--] wrap around. *)
Definition size_t_modulus : Z := 2 ^ 64.

Definition wrap_size_t (z : Z) : Z := z mod size_t_modulus.

(** Modelled from the spec: the declaration of [frame_id_t] is not among the
    sources; frame identifiers are signed integers (they may be negative),
    taken here to be 32 bits wide.  [static_cast<frame_id_t>] of a [size_t]
    keeps the low 32 bits, read in two's complement. *)
Definition static_cast_frame_id_t (z : Z) : Z :=
  (z + 2 ^ 31) mod 2 ^ 32 - 2 ^ 31.

(** ** Containers of the standard library *)

(** [m[k]] on a [std::unordered_map]: the entry is value-initialised when
    it is absent.  [subscript] is the map after the access, [at_default] the
    value read. *)
Definition subscript {V} (d : V) (m : gmap Z V) (k : Z) : gmap Z V :=
  match m !! k with
  | Some _ => m
  | None => <[k := d]> m
  end.

Definition at_default {V} (d : V) (m : gmap Z V) (k : Z) : V :=
  default d (m !! k).

(** An iterator into a [std::list] designates one node.  The replacer only
    ever stores, under key [f], the iterator of the node it has just linked
    in for [f]; an iterator is therefore modelled by the contents of the
    node it designates.  A value-initialised iterator (what [m[k]] yields
    for an absent key) is [singular].  The model is exact as long as the
    list holds no two nodes with the same contents, which [wf] below
    establishes for every reachable state. *)
Inductive iterator (A : Type) : Type :=
| singular : iterator A
| at_node (x : A) : iterator A.
Arguments singular {A}.
Arguments at_node {A} x.

(** [l.erase(it)], given the contents of the node: [None] is undefined
    behaviour (the node is not in the list). *)
Fixpoint erase_node {A} `{EqDecision A} (x : A) (l : list A)
  : option (list A) :=
  match l with
  | [] => None
  | y :: l' => if decide (x = y) then Some l' else cons y <$> erase_node x l'
  end.

Definition list_erase {A} `{EqDecision A} (it : iterator A) (l : list A)
  : option (list A) :=
  match it with
  | singular => None
  | at_node x => erase_node x l
  end.

(** [l.remove(v)]: unlink every node equal to [v]. *)
Definition list_remove (v : Z) (l : list Z) : list Z :=
  filter (λ y, y ≠ v) l.

(** [l.insert(it, x)] with [it] the iterator at position [i]. *)
Definition list_insert_before {A} (i : nat) (x : A) (l : list A) : list A :=
  take i l ++ x :: drop i l.

(** [std::upper_bound(first, last, x, comp)] over a range partitioned by
    [comp]: the position of the first element [y] with [comp x y]. *)
Fixpoint upper_bound {A} (comp : A → A → bool) (x : A) (l : list A) : nat :=
  match l with
  | [] => 0%nat
  | y :: l' => if comp x y then 0%nat else S (upper_bound comp x l')
  end.

(** ** The replacer's state *)

(** [k_time = std::pair<frame_id_t, size_t>]: a frame and its Kth-back
    timestamp. *)
Abbreviation k_time := (Z * Z)%type.

(** Modelled from the spec: the class declaration (lru_k_replacer.h) is not
    among the sources.  The per-frame tables are created lazily and keyed
    by frame id (hash maps); the two ranking structures are linked lists;
    the clock and the size start at zero. *)
Record LRUKReplacer : Type := mkLRUKReplacer {
  replacer_size_ : Z;
  k_ : Z;
  current_timestamp_ : Z;
  curr_size_ : Z;
  hist : gmap Z (list Z);
  recorded_cnt_ : gmap Z Z;
  evictable_ : gmap Z bool;
  new_frame_ : list Z;
  new_locate_ : gmap Z (iterator Z);
  cache_frame_ : list k_time;
  cache_locate_ : gmap Z (iterator k_time);
}.

(** Assignments to single members. *)
Definition set_current_timestamp_ (v : Z) (s : LRUKReplacer) : LRUKReplacer :=
  mkLRUKReplacer (replacer_size_ s) (k_ s) v (curr_size_ s) (hist s)
    (recorded_cnt_ s) (evictable_ s) (new_frame_ s) (new_locate_ s)
    (cache_frame_ s) (cache_locate_ s).

Definition set_curr_size_ (v : Z) (s : LRUKReplacer) : LRUKReplacer :=
  mkLRUKReplacer (replacer_size_ s) (k_ s) (current_timestamp_ s) v (hist s)
    (recorded_cnt_ s) (evictable_ s) (new_frame_ s) (new_locate_ s)
    (cache_frame_ s) (cache_locate_ s).

Definition set_hist (v : gmap Z (list Z)) (s : LRUKReplacer) : LRUKReplacer :=
  mkLRUKReplacer (replacer_size_ s) (k_ s) (current_timestamp_ s)
    (curr_size_ s) v (recorded_cnt_ s) (evictable_ s) (new_frame_ s)
    (new_locate_ s) (cache_frame_ s) (cache_locate_ s).

Definition set_recorded_cnt_ (v : gmap Z Z) (s : LRUKReplacer) : LRUKReplacer :=
  mkLRUKReplacer (replacer_size_ s) (k_ s) (current_timestamp_ s)
    (curr_size_ s) (hist s) v (evictable_ s) (new_frame_ s) (new_locate_ s)
    (cache_frame_ s) (cache_locate_ s).

Definition set_evictable_ (v : gmap Z bool) (s : LRUKReplacer) : LRUKReplacer :=
  mkLRUKReplacer (replacer_size_ s) (k_ s) (current_timestamp_ s)
    (curr_size_ s) (hist s) (recorded_cnt_ s) v (new_frame_ s) (new_locate_ s)
    (cache_frame_ s) (cache_locate_ s).

Definition set_new_frame_ (v : list Z) (s : LRUKReplacer) : LRUKReplacer :=
  mkLRUKReplacer (replacer_size_ s) (k_ s) (current_timestamp_ s)
    (curr_size_ s) (hist s) (recorded_cnt_ s) (evictable_ s) v (new_locate_ s)
    (cache_frame_ s) (cache_locate_ s).

Definition set_new_locate_ (v : gmap Z (iterator Z)) (s : LRUKReplacer)
  : LRUKReplacer :=
  mkLRUKReplacer (replacer_size_ s) (k_ s) (current_timestamp_ s)
    (curr_size_ s) (hist s) (recorded_cnt_ s) (evictable_ s) (new_frame_ s) v
    (cache_frame_ s) (cache_locate_ s).

Definition set_cache_frame_ (v : list k_time) (s : LRUKReplacer)
  : LRUKReplacer :=
  mkLRUKReplacer (replacer_size_ s) (k_ s) (current_timestamp_ s)
    (curr_size_ s) (hist s) (recorded_cnt_ s) (evictable_ s) (new_frame_ s)
    (new_locate_ s) v (cache_locate_ s).

Definition set_cache_locate_ (v : gmap Z (iterator k_time)) (s : LRUKReplacer)
  : LRUKReplacer :=
  mkLRUKReplacer (replacer_size_ s) (k_ s) (current_timestamp_ s)
    (curr_size_ s) (hist s) (recorded_cnt_ s) (evictable_ s) (new_frame_ s)
    (new_locate_ s) (cache_frame_ s) v.

(** What a call does: return normally, throw [std::exception] (the state is
    the one the throw leaves behind), or run into undefined behaviour. *)
Inductive outcome (A : Type) : Type :=
| Return (a : A) (s : LRUKReplacer)
| Throw (s : LRUKReplacer)
| Undefined.
Arguments Return {A} a s.
Arguments Throw {A} s.
Arguments Undefined {A}.

(** ** Member functions *)

(** [LRUKReplacer::LRUKReplacer(num_frames, k)] *)
Definition new_LRUKReplacer (num_frames k : Z) : LRUKReplacer :=
  mkLRUKReplacer num_frames k 0 0 ∅ ∅ ∅ [] ∅ [] ∅.

(** [LRUKReplacer::Size] *)
Definition Size (s : LRUKReplacer) : Z := curr_size_ s.

(** [LRUKReplacer::CmpTimestamp] *)
Definition CmpTimestamp (f1 f2 : k_time) : bool := f1.2 <? f2.2.

(** The two loops of [Evict]: walk [l] in order, reading [evictable_[frame]]
    of each node until one is true.  The result is the position and the
    node found, and [evictable_] after the reads. *)
Fixpoint find_evictable {A} (frame_of : A → Z) (i : nat) (l : list A)
    (ev : gmap Z bool) : option (nat * A) * gmap Z bool :=
  match l with
  | [] => (None, ev)
  | x :: l' =>
      if at_default false ev (frame_of x)
      then (Some (i, x), subscript false ev (frame_of x))
      else find_evictable frame_of (S i) l' (subscript false ev (frame_of x))
  end.

(** [LRUKReplacer::Evict]: [Some frame] is [true] with [*frame_id = frame],
    [None] is [false]. *)
Definition Evict (s : LRUKReplacer) : outcome (option Z) :=
  if Size s =? 0 then Return None s else
  match find_evictable id 0 (reverse (new_frame_ s)) (evictable_ s) with
  | (Some (_, frame), ev) =>
      let s := set_evictable_ ev s in
      let s := set_recorded_cnt_ (<[frame := 0]> (recorded_cnt_ s)) s in
      let s := set_new_locate_ (delete frame (new_locate_ s)) s in
      let s := set_new_frame_ (list_remove frame (new_frame_ s)) s in
      let s := set_curr_size_ (wrap_size_t (curr_size_ s - 1)) s in
      let s := set_hist (<[frame := []]> (hist s)) s in
      Return (Some frame) s
  | (None, ev) =>
      match find_evictable fst 0 (cache_frame_ s) ev with
      | (Some (i, (frame, _)), ev) =>
          let s := set_evictable_ ev s in
          let s := set_recorded_cnt_ (<[frame := 0]> (recorded_cnt_ s)) s in
          let s := set_cache_frame_ (delete i (cache_frame_ s)) s in
          let s := set_cache_locate_ (delete frame (cache_locate_ s)) s in
          let s := set_curr_size_ (wrap_size_t (curr_size_ s - 1)) s in
          let s := set_hist (<[frame := []]> (hist s)) s in
          Return (Some frame) s
      | (None, ev) => Return None (set_evictable_ ev s)
      end
  end.

(** Lines 70-79 and 81-90 of [RecordAccess] share their tail: rank the
    frame by the front of its history and link it into [cache_frame_]. *)
Definition insert_ranked (frame_id : Z) (s : LRUKReplacer) : outcome unit :=
  match at_default [] (hist s) frame_id with
  | [] => Undefined
  | kth_time :: _ =>
      let new_cache : k_time := (frame_id, kth_time) in
      let it := upper_bound CmpTimestamp new_cache (cache_frame_ s) in
      let s := set_cache_frame_
                 (list_insert_before it new_cache (cache_frame_ s)) s in
      let s := set_cache_locate_
                 (<[frame_id := at_node new_cache]> (cache_locate_ s)) s in
      Return tt s
  end.

(** Lines 59-68 of [RecordAccess]: advance the clock, count and log the
    access and, when it is the frame's first, make the frame evictable and
    link it in at the front of [new_frame_]. *)
Definition RecordAccess_begin (frame_id : Z) (s : LRUKReplacer)
  : LRUKReplacer :=
  let s := set_current_timestamp_ (wrap_size_t (current_timestamp_ s + 1)) s in
  let s :=
    set_recorded_cnt_
      (<[frame_id := wrap_size_t (at_default 0 (recorded_cnt_ s) frame_id + 1)]>
         (recorded_cnt_ s)) s in
  let s :=
    set_hist
      (<[frame_id := at_default [] (hist s) frame_id ++ [current_timestamp_ s]]>
         (hist s)) s in
  let count := at_default 0 (recorded_cnt_ s) frame_id in
  if count =? 1 then
    let s := set_evictable_ (<[frame_id := true]> (evictable_ s)) s in
    let s := set_curr_size_ (wrap_size_t (curr_size_ s + 1)) s in
    let s := set_new_frame_ (frame_id :: new_frame_ s) s in
    set_new_locate_ (<[frame_id := at_node frame_id]> (new_locate_ s)) s
  else s.

(** [LRUKReplacer::RecordAccess] *)
Definition RecordAccess (frame_id : Z) (s : LRUKReplacer) : outcome unit :=
  if static_cast_frame_id_t (replacer_size_ s) <? frame_id then Throw s else
  let s := RecordAccess_begin frame_id s in
  let count := at_default 0 (recorded_cnt_ s) frame_id in
  if count =? k_ s then
    match list_erase (at_default singular (new_locate_ s) frame_id)
            (new_frame_ s) with
    | None => Undefined
    | Some l =>
        let s := set_new_frame_ l s in
        let s := set_new_locate_ (delete frame_id (new_locate_ s)) s in
        insert_ranked frame_id s
    end
  else if k_ s <? count then
    match at_default [] (hist s) frame_id with
    | [] => Undefined
    | _ :: h =>
        let s := set_hist (<[frame_id := h]> (hist s)) s in
        match list_erase (at_default singular (cache_locate_ s) frame_id)
                (cache_frame_ s) with
        | None => Undefined
        | Some l => insert_ranked frame_id (set_cache_frame_ l s)
        end
    end
  else Return tt s.

(** [LRUKReplacer::SetEvictable] *)
Definition SetEvictable (frame_id : Z) (set_evictable : bool) (s : LRUKReplacer)
  : outcome unit :=
  if static_cast_frame_id_t (replacer_size_ s) <? frame_id then Throw s else
  let same :=
    bool_decide (at_default false (evictable_ s) frame_id = set_evictable) in
  let s := set_evictable_ (subscript false (evictable_ s) frame_id) s in
  if same then Return tt s else
  let untracked := at_default 0 (recorded_cnt_ s) frame_id =? 0 in
  let s := set_recorded_cnt_ (subscript 0 (recorded_cnt_ s) frame_id) s in
  if untracked then Return tt s else
  let s := set_evictable_ (<[frame_id := set_evictable]> (evictable_ s)) s in
  if set_evictable
  then Return tt (set_curr_size_ (wrap_size_t (curr_size_ s + 1)) s)
  else Return tt (set_curr_size_ (wrap_size_t (curr_size_ s - 1)) s).

(** [LRUKReplacer::Remove] *)
Definition Remove (frame_id : Z) (s : LRUKReplacer) : outcome unit :=
  if static_cast_frame_id_t (replacer_size_ s) <? frame_id then Throw s else
  let pinned := negb (at_default false (evictable_ s) frame_id) in
  let s := set_evictable_ (subscript false (evictable_ s) frame_id) s in
  if pinned then Throw s else
  let count := at_default 0 (recorded_cnt_ s) frame_id in
  let s := set_recorded_cnt_ (subscript 0 (recorded_cnt_ s) frame_id) s in
  if count =? 0 then Return tt s else
  if count <? k_ s then
    match list_erase (at_default singular (new_locate_ s) frame_id)
            (new_frame_ s) with
    | None => Undefined
    | Some l =>
        let s := set_new_frame_ l s in
        let s := set_new_locate_ (delete frame_id (new_locate_ s)) s in
        let s := set_recorded_cnt_ (<[frame_id := 0]> (recorded_cnt_ s)) s in
        let s := set_hist (<[frame_id := []]> (hist s)) s in
        Return tt (set_curr_size_ (wrap_size_t (curr_size_ s - 1)) s)
    end
  else
    match list_erase (at_default singular (cache_locate_ s) frame_id)
            (cache_frame_ s) with
    | None => Undefined
    | Some l =>
        let s := set_cache_frame_ l s in
        let s := set_cache_locate_ (delete frame_id (cache_locate_ s)) s in
        let s := set_recorded_cnt_ (<[frame_id := 0]> (recorded_cnt_ s)) s in
        let s := set_hist (<[frame_id := []]> (hist s)) s in
        Return tt (set_curr_size_ (wrap_size_t (curr_size_ s - 1)) s)
    end.

(** ** Sequences of calls *)

(** One call of a member function by the buffer pool. *)
Inductive call : Type :=
| CallRecordAccess (frame_id : Z)
| CallSetEvictable (frame_id : Z) (set_evictable : bool)
| CallEvict
| CallRemove (frame_id : Z).

(** The state a call leaves behind; a caller that catches the exception
    goes on with the state of the throw.  [None]: undefined behaviour. *)
Definition state_after {A} (o : outcome A) : option LRUKReplacer :=
  match o with
  | Return _ s => Some s
  | Throw s => Some s
  | Undefined => None
  end.

Definition do_call (c : call) (s : LRUKReplacer) : option LRUKReplacer :=
  match c with
  | CallRecordAccess f => state_after (RecordAccess f s)
  | CallSetEvictable f b => state_after (SetEvictable f b s)
  | CallEvict => state_after (Evict s)
  | CallRemove f => state_after (Remove f s)
  end.

Fixpoint run (cs : list call) (s : LRUKReplacer) : option LRUKReplacer :=
  match cs with
  | [] => Some s
  | c :: cs' =>
      match do_call c s with
      | Some s' => run cs' s'
      | None => None
      end
  end.

(** A state is reachable when a sequence of calls leads to it from a
    replacer constructed with [k >= 1], and the sequence is short enough
    for the logical clock not to wrap around on the next call either (it
    takes 2^64 calls of [RecordAccess] to wrap a [size_t]). *)
Definition reachable (s : LRUKReplacer) : Prop :=
  ∃ num_frames k cs,
    1 ≤ k ∧ Z.of_nat (length cs) + 1 < size_t_modulus ∧
    run cs (new_LRUKReplacer num_frames k) = Some s.

(** ** Observations on a state *)

Definition count_of (s : LRUKReplacer) (f : Z) : Z :=
  at_default 0 (recorded_cnt_ s) f.

Definition history_of (s : LRUKReplacer) (f : Z) : list Z :=
  at_default [] (hist s) f.

Definition is_evictable (s : LRUKReplacer) (f : Z) : bool :=
  at_default false (evictable_ s) f.

(** The Early Set is [new_frame_], newest first; the Stable Set is
    [cache_frame_], smallest Kth-back timestamp first. *)
Definition tracked (s : LRUKReplacer) : list Z :=
  new_frame_ s ++ (cache_frame_ s).*1.

(** The frames that count towards [Size]: accessed and evictable. *)
Definition counted (s : LRUKReplacer) : gset Z :=
  filter (λ f, 0 < count_of s f ∧ is_evictable s f = true)
    (dom (recorded_cnt_ s)).

Definition ts_le (x y : k_time) : Prop := x.2 ≤ y.2.

(** A frame the replacer has never heard of: no entry in any table. *)
Definition forget (f : Z) (s : LRUKReplacer) : LRUKReplacer :=
  set_hist (delete f (hist s))
    (set_recorded_cnt_ (delete f (recorded_cnt_ s))
       (set_evictable_ (delete f (evictable_ s)) s)).

(** ** The representation invariant *)

Record wf (s : LRUKReplacer) : Prop := {
  wf_k : 1 ≤ k_ s;
  wf_clock : 0 ≤ current_timestamp_ s < size_t_modulus;
  wf_nodup : NoDup (tracked s);
  wf_early : ∀ f, f ∈ new_frame_ s ↔ 1 ≤ count_of s f < k_ s;
  wf_stable : ∀ f, f ∈ (cache_frame_ s).*1 ↔ k_ s ≤ count_of s f;
  wf_count : ∀ f, 0 ≤ count_of s f ≤ current_timestamp_ s;
  wf_hist : ∀ f,
    Z.of_nat (length (history_of s f)) = Z.min (count_of s f) (k_ s);
  wf_new_locate : ∀ f,
    f ∈ new_frame_ s → new_locate_ s !! f = Some (at_node f);
  wf_cache_locate : ∀ f t,
    (f, t) ∈ cache_frame_ s → cache_locate_ s !! f = Some (at_node (f, t));
  wf_kth : ∀ f t, (f, t) ∈ cache_frame_ s → head (history_of s f) = Some t;
  wf_sorted : StronglySorted ts_le (cache_frame_ s);
  wf_size :
    curr_size_ s =
    Z.of_nat (length (filter (λ f, is_evictable s f = true) (tracked s)));
  wf_tracked : Z.of_nat (length (tracked s)) ≤ current_timestamp_ s;
  wf_flag : ∀ f, 1 ≤ count_of s f → is_Some (evictable_ s !! f);
  wf_range : ∀ f,
    is_Some (evictable_ s !! f) →
    f ≤ static_cast_frame_id_t (replacer_size_ s);
  wf_entry : ∀ f, is_evictable s f = true → is_Some (recorded_cnt_ s !! f);
}.

(** What [Evict] and [Remove] do to the per-frame tables and to the size
    when they retire [f] (the lists are updated by the caller). *)
Definition retire (f : Z) (s : LRUKReplacer) : LRUKReplacer :=
  set_hist (<[f := []]> (hist s))
    (set_curr_size_ (curr_size_ s - 1)
       (set_recorded_cnt_ (<[f := 0]> (recorded_cnt_ s)) s)).

Definition retire_early (f : Z) (l : list Z) (s : LRUKReplacer)
  : LRUKReplacer :=
  set_new_locate_ (delete f (new_locate_ s)) (set_new_frame_ l (retire f s)).

Definition retire_stable (f : Z) (l : list k_time) (s : LRUKReplacer)
  : LRUKReplacer :=
  set_cache_locate_ (delete f (cache_locate_ s))
    (set_cache_frame_ l (retire f s)).

(** The effects of [RecordAccess] when no counter wraps around: lines
    59-61 (with [h] the history the call leaves for [f]), lines 64-67,
    lines 71-72 and lines 76-77 (or 87-88). *)
Definition accessed (f : Z) (h : list Z) (s : LRUKReplacer) : LRUKReplacer :=
  set_hist (<[f := h]> (hist s))
    (set_recorded_cnt_ (<[f := count_of s f + 1]> (recorded_cnt_ s))
       (set_current_timestamp_ (current_timestamp_ s + 1) s)).

Definition enter_early (f : Z) (s : LRUKReplacer) : LRUKReplacer :=
  set_new_locate_ (<[f := at_node f]> (new_locate_ s))
    (set_new_frame_ (f :: new_frame_ s)
       (set_curr_size_ (curr_size_ s + 1)
          (set_evictable_ (<[f := true]> (evictable_ s)) s))).

Definition leave_early (f : Z) (l : list Z) (s : LRUKReplacer) : LRUKReplacer :=
  set_new_locate_ (delete f (new_locate_ s)) (set_new_frame_ l s).

Definition enter_stable (f t : Z) (l : list k_time) (s : LRUKReplacer)
  : LRUKReplacer :=
  set_cache_locate_ (<[f := at_node (f, t)]> (cache_locate_ s))
    (set_cache_frame_ l s).

(** ** Timestamps and the order of eviction *)

(** The calls that pass the range check of [RecordAccess] (line 55): the
    only ones that reach [current_timestamp_++] (line 59). *)
Definition records_access (num_frames : Z) (c : call) : bool :=
  match c with
  | CallRecordAccess f =>
      bool_decide (f ≤ static_cast_frame_id_t num_frames)
  | _ => false
  end.

(** The timestamps a state holds: every entry of a history is a past
    value of the clock, a history is strictly increasing, and no timestamp
    is in the history of two frames. *)
Definition timestamps_ok (s : LRUKReplacer) : Prop :=
  (∀ f t, t ∈ history_of s f → 1 ≤ t ≤ current_timestamp_ s) ∧
  (∀ f, StronglySorted Z.lt (history_of s f)) ∧
  (∀ f g t, t ∈ history_of s f → t ∈ history_of s g → f = g).

(** A call retires a frame's history, or leaves the histories alone, or
    logs the next clock value for one frame. *)
Definition history_step (s s' : LRUKReplacer) : Prop :=
  ∃ f h,
    (∀ g, history_of s' g = if decide (f = g) then h else history_of s g) ∧
    ((current_timestamp_ s' = current_timestamp_ s ∧
      (h = [] ∨ h = history_of s f)) ∨
     (current_timestamp_ s' = current_timestamp_ s + 1 ∧
      ∃ d, h = drop d (history_of s f ++ [current_timestamp_ s + 1]))).

(** The oldest timestamp the replacer holds for a frame: the first access
    of a frame of the Early Set, the Kth-back access of a frame of the
    Stable Set. *)
Definition oldest_kept (s : LRUKReplacer) (f : Z) : Z :=
  default 0 (head (history_of s f)).

(** The Early Set is in the order of the first accesses, newest first. *)
Definition early_ordered (s : LRUKReplacer) : Prop :=
  StronglySorted (λ f g, oldest_kept s g < oldest_kept s f) (new_frame_ s).

(** ** A worked scenario *)

(** Seven frames, [k = 2]: frames 1 to 6 are accessed once and marked
    evictable, then frame 1 is accessed twice more; afterwards frame 1 is
    in the Stable Set and frames 2 to 6 are in the Early Set. *)
Definition scenario : list call :=
  [CallRecordAccess 1; CallRecordAccess 2; CallRecordAccess 3;
   CallRecordAccess 4; CallRecordAccess 5; CallRecordAccess 6;
   CallSetEvictable 1 true; CallSetEvictable 2 true; CallSetEvictable 3 true;
   CallSetEvictable 4 true; CallSetEvictable 5 true; CallSetEvictable 6 true;
   CallRecordAccess 1; CallRecordAccess 1].

(** The state a sequence of calls leads to (the initial state if the
    sequence runs into undefined behaviour). *)
Definition state_of (num_frames k : Z) (cs : list call) : LRUKReplacer :=
  default (new_LRUKReplacer num_frames k)
    (run cs (new_LRUKReplacer num_frames k)).

Definition scenario_state : LRUKReplacer := state_of 7 2 scenario.

(** What the [Evict] calls of a sequence return, in order, each with the
    [Size()] it leaves. *)
Fixpoint evictions (cs : list call) (s : LRUKReplacer) : list (option Z * Z) :=
  match cs with
  | [] => []
  | CallEvict :: cs' =>
      match Evict s with
      | Return r s' => (r, Size s') :: evictions cs' s'
      | Throw s' => evictions cs' s'
      | Undefined => []
      end
  | c :: cs' =>
      match do_call c s with
      | Some s' => evictions cs' s'
      | None => []
      end
  end.

(** ** Tactics *)

(** Unfold the observations and the effects down to the fields. *)
Ltac observe :=
  unfold Size, tracked, retire_early, retire_stable, retire, enter_stable,
    leave_early, enter_early, accessed in *;
  unfold count_of, history_of, is_evictable in *; simpl in *.

(** Reduce field accesses of updated states, and nothing else. *)
Ltac fields :=
  cbn [replacer_size_ k_ current_timestamp_ curr_size_ hist recorded_cnt_
       evictable_ new_frame_ new_locate_ cache_frame_ cache_locate_
       set_current_timestamp_ set_curr_size_ set_hist set_recorded_cnt_
       set_evictable_ set_new_frame_ set_new_locate_ set_cache_frame_
       set_cache_locate_].

(** Name the clauses of the invariant [H]. *)
Ltac open_wf H :=
  destruct H as [I_k I_clock I_nodup I_early I_stable I_count I_hist
                 I_new_locate I_cache_locate I_kth I_sorted I_size I_tracked
                 I_flag I_range I_entry].

(** A concrete state is reachable: run the calls. *)
Ltac reach num_frames k cs :=
  exists num_frames, k, cs; split; [lia|]; split; vm_compute; reflexivity.

(** * Proofs *)

(** ** Facts about the containers *)

Section container_facts.
Context {A : Type} `{EqDecision A}.
Implicit Types (x y : A) (l : list A).

Lemma erase_node_Some x l l' :
  erase_node x l = Some l' → ∃ l1 l2, l = l1 ++ x :: l2 ∧ l' = l1 ++ l2.
Proof.
  revert l'. induction l as [|y l IH]; intros l' Hl; simpl in Hl; [done|].
  destruct (decide (x = y)) as [->|Hne].
  - injection Hl as <-. by exists [], l.
  - destruct (erase_node x l) as [l0|]; [|done].
    injection Hl as <-. destruct (IH l0 eq_refl) as (l1 & l2 & -> & ->).
    by exists (y :: l1), l2.
Qed.

Lemma erase_node_elem_of x l : x ∈ l → is_Some (erase_node x l).
Proof.
  induction l as [|y l IH]; intros Hx; [by apply not_elem_of_nil in Hx|].
  simpl. destruct (decide (x = y)); [by eexists|].
  apply elem_of_cons in Hx as [?|Hx]; [done|].
  destruct (IH Hx) as [l' ->]. by eexists.
Qed.

Lemma filter_ext_elem_of (P Q : A → Prop) `{∀ x, Decision (P x)}
    `{∀ x, Decision (Q x)} l :
  (∀ x, x ∈ l → P x ↔ Q x) → filter P l = filter Q l.
Proof.
  induction l as [|y l IH]; intros HPQ; [done|].
  rewrite !filter_cons.
  assert (filter P l = filter Q l) as ->.
  { apply IH. intros x Hx. apply HPQ. by right. }
  destruct (decide (P y)) as [HP|HP], (decide (Q y)) as [HQ|HQ]; try done.
  - apply HPQ in HP; [done|by left].
  - apply HPQ in HQ; [done|by left].
Qed.

Lemma filter_none (P : A → Prop) `{∀ x, Decision (P x)} l :
  Forall (λ x, ¬ P x) l → filter P l = [].
Proof.
  induction 1 as [|y l Hy _ IH]; [done|]. by rewrite filter_cons_False.
Qed.

Lemma at_default_subscript {V} (d : V) (m : gmap Z V) k k' :
  at_default d (subscript d m k) k' = at_default d m k'.
Proof.
  unfold at_default, subscript. destruct (m !! k) eqn:Hk; [done|].
  destruct (decide (k = k')) as [<-|Hne].
  - by rewrite lookup_insert_eq, Hk.
  - by rewrite lookup_insert_ne.
Qed.

Lemma subscript_is_Some {V} (d : V) (m : gmap Z V) k :
  is_Some (m !! k) → subscript d m k = m.
Proof. unfold subscript. by intros [v ->]. Qed.

Lemma subscript_lookup_is_Some {V} (d : V) (m : gmap Z V) k k' :
  is_Some (subscript d m k !! k') ↔ k = k' ∨ is_Some (m !! k').
Proof.
  unfold subscript. destruct (m !! k) eqn:Hk.
  - split; [auto|]. intros [<-|?]; [by eexists|done].
  - rewrite lookup_insert_is_Some. split.
    + intros [?|[_ ?]]; auto.
    + intros [?|?]; [by left|]. destruct (decide (k = k')); auto.
Qed.

Lemma at_default_insert {V} (d : V) (m : gmap Z V) k v k' :
  at_default d (<[k := v]> m) k' =
  if decide (k = k') then v else at_default d m k'.
Proof.
  unfold at_default. rewrite lookup_insert. by destruct (decide (k = k')).
Qed.

Lemma at_default_insert_eq {V} (d : V) (m : gmap Z V) k v :
  at_default d (<[k := v]> m) k = v.
Proof. rewrite at_default_insert. by destruct (decide (k = k)). Qed.

Lemma at_default_insert_ne {V} (d : V) (m : gmap Z V) k v k' :
  k ≠ k' → at_default d (<[k := v]> m) k' = at_default d m k'.
Proof. intros. rewrite at_default_insert. by destruct (decide (k = k')). Qed.
End container_facts.

(** Read a table at [g] after an update at [f]. *)
Ltac by_frame f g :=
  destruct (decide (f = g)) as [<-|?];
  rewrite ?at_default_insert_eq, ?at_default_insert_ne by done.

Lemma upper_bound_insert (x : k_time) (l : list k_time) :
  ∃ l1 l2, l = l1 ++ l2 ∧
    list_insert_before (upper_bound CmpTimestamp x l) x l = l1 ++ x :: l2 ∧
    Forall (λ y, y.2 ≤ x.2) l1 ∧
    (StronglySorted ts_le l → Forall (λ y, x.2 < y.2) l2).
Proof.
  induction l as [|y l (l1 & l2 & Hl & Hins & Hle & Hgt)].
  - exists [], []. repeat split; constructor.
  - simpl. unfold CmpTimestamp at 1.
    destruct (Z.ltb_spec (x.2) (y.2)) as [Hlt|Hge].
    + exists [], (y :: l). repeat split; [constructor|].
      intros [Hall _]%StronglySorted_cons. constructor; [done|].
      eapply Forall_impl; [exact Hall|]. unfold ts_le. intros; lia.
    + exists (y :: l1), l2. unfold list_insert_before in *. simpl.
      rewrite Hins. subst l. repeat split; [by constructor|].
      intros [_ Hs]%StronglySorted_cons. by apply Hgt.
Qed.

Lemma find_evictable_spec {A} (frame_of : A → Z) (i : nat) (l : list A)
    (ev : gmap Z bool) :
  (∀ x, x ∈ l → is_Some (ev !! frame_of x)) →
  match find_evictable frame_of i l ev with
  | (Some (j, x), ev') =>
      ev' = ev ∧ at_default false ev (frame_of x) = true ∧
      ∃ l1 l2, l = l1 ++ x :: l2 ∧ j = (i + length l1)%nat ∧
        Forall (λ y, at_default false ev (frame_of y) = false) l1
  | (None, ev') =>
      ev' = ev ∧ Forall (λ y, at_default false ev (frame_of y) = false) l
  end.
Proof.
  revert i. induction l as [|x l IH]; intros i Hdom; simpl.
  - by split.
  - rewrite subscript_is_Some by (apply Hdom; by left).
    destruct (at_default false ev (frame_of x)) eqn:Hx.
    + split; [done|]. split; [done|]. exists [], l. simpl.
      repeat split; [lia|constructor].
    + specialize (IH (S i)).
      destruct (find_evictable frame_of (S i) l ev) as [[[j y]|] ev'].
      * destruct IH as (-> & Hy & l1 & l2 & -> & -> & Hall).
        { intros z Hz. apply Hdom. by right. }
        split; [done|]. split; [done|]. exists (x :: l1), l2. simpl.
        repeat split; [lia|by constructor].
      * destruct IH as [-> Hall]. { intros z Hz. apply Hdom. by right. }
        split; [done|]. by constructor.
Qed.

(** ** Linking a node into, and out of, a list *)

Lemma elem_of_middle {A} (x y : A) (l1 l2 : list A) :
  x ∈ l1 ++ y :: l2 ↔ x = y ∨ x ∈ l1 ++ l2.
Proof. rewrite !elem_of_app, elem_of_cons. tauto. Qed.

Lemma list_unlink (l l1 l2 : list Z) (f : Z) :
  l = l1 ++ f :: l2 → NoDup l →
  f ∈ l ∧ (f ∉ l1 ++ l2) ∧ l ≡ₚ f :: l1 ++ l2 ∧
  (∀ g, g ≠ f → g ∈ l1 ++ l2 ↔ g ∈ l).
Proof.
  intros -> Hnd.
  assert (l1 ++ f :: l2 ≡ₚ f :: l1 ++ l2) as Hperm
    by by rewrite <- Permutation_middle.
  rewrite Hperm in Hnd. apply NoDup_cons in Hnd as [Hf _].
  split_and!; [apply elem_of_middle; by left|done|done|].
  intros g Hg. rewrite elem_of_middle. tauto.
Qed.

Lemma ranked_unlink (l a b : list k_time) (f t : Z) :
  l = a ++ (f, t) :: b → NoDup (l.*1) →
  (f ∉ (a ++ b).*1) ∧
  l.*1 ≡ₚ f :: (a ++ b).*1 ∧
  (∀ p, p ∈ a ++ b ↔ p ∈ l ∧ p.1 ≠ f) ∧
  (StronglySorted ts_le l → StronglySorted ts_le (a ++ b)).
Proof.
  intros -> Hnd.
  assert ((a ++ (f, t) :: b).*1 ≡ₚ f :: (a ++ b).*1) as Hperm.
  { rewrite !fmap_app, fmap_cons. by rewrite <- Permutation_middle. }
  rewrite Hperm in Hnd. apply NoDup_cons in Hnd as [Hf Hnd].
  split_and!; [done|done| |].
  - intros p. rewrite !elem_of_app, elem_of_cons. split.
    + intros Hp. split; [tauto|]. intros <-. apply Hf.
      apply list_elem_of_fmap_2. apply elem_of_app. tauto.
    + intros [[?|[->|?]] Hne]; [by left|done|by right].
  - intros (H12 & Hs1 & [_ Hs2]%StronglySorted_cons)%StronglySorted_app.
    apply StronglySorted_app. split_and!; [|done..].
    intros x y Hx Hy. apply H12; [done|by right].
Qed.

Lemma ranked_link (c1 c2 : list k_time) (f t : Z) :
  f ∉ (c1 ++ c2).*1 →
  (c1 ++ (f, t) :: c2).*1 ≡ₚ f :: (c1 ++ c2).*1 ∧
  (∀ g u, (g, u) ∈ c1 ++ (f, t) :: c2 ↔
          (g = f ∧ u = t) ∨ (g ≠ f ∧ (g, u) ∈ c1 ++ c2)) ∧
  (StronglySorted ts_le (c1 ++ c2) →
   Forall (λ y, y.2 ≤ t) c1 → Forall (λ y, t < y.2) c2 →
   StronglySorted ts_le (c1 ++ (f, t) :: c2)).
Proof.
  intros Hf. split_and!.
  - rewrite !fmap_app, fmap_cons. by rewrite <- Permutation_middle.
  - intros g u. rewrite !elem_of_app, elem_of_cons. split.
    + intros [Hg|[[= -> ->]|Hg]]; [right|by left|right].
      all: split; [|tauto]; intros ->; apply Hf;
        apply (list_elem_of_fmap_2 fst _ (f, u)), elem_of_app; tauto.
    + intros [[-> ->]|[_ [?|?]]]; tauto.
  - intros (H12 & Hs1 & Hs2)%StronglySorted_app Hle Hgt.
    apply StronglySorted_app. split_and!; [|done|].
    + intros x y Hx [->|Hy]%elem_of_cons.
      * rewrite Forall_forall in Hle. by apply Hle.
      * by apply H12.
    + apply StronglySorted_cons. split; [|done].
      eapply Forall_impl; [exact Hgt|]. unfold ts_le. simpl. intros; lia.
Qed.

(** ** The invariant holds initially *)

Lemma wf_new num_frames k : 1 ≤ k → wf (new_LRUKReplacer num_frames k).
Proof.
  intros Hk.
  assert (∀ f, count_of (new_LRUKReplacer num_frames k) f = 0) as Hcnt.
  { intros f. unfold count_of, at_default. simpl. by rewrite lookup_empty. }
  assert (∀ f, history_of (new_LRUKReplacer num_frames k) f = []) as Hhist.
  { intros f. unfold history_of, at_default. simpl. by rewrite lookup_empty. }
  split; unfold tracked; simpl; intros; rewrite ?Hcnt, ?Hhist in *;
    try match goal with H : _ ∈ [] |- _ => by apply not_elem_of_nil in H end;
    try match goal with H : is_Some (∅ !! _) |- _ =>
      rewrite lookup_empty in H; by destruct H end;
    try (unfold size_t_modulus; simpl; lia);
    try by constructor.
  - split; [intros Hf; by apply not_elem_of_nil in Hf|lia].
  - split; [intros Hf; by apply not_elem_of_nil in Hf|lia].
  - unfold is_evictable, at_default in *. simpl in *.
    by rewrite lookup_empty in *.
Qed.

Lemma wrap_size_t_small z : 0 ≤ z < size_t_modulus → wrap_size_t z = z.
Proof. intros. unfold wrap_size_t. by apply Z.mod_small. Qed.

(** A frame of a duplicate-free list can be brought to the front. *)
Lemma NoDup_elem_of_front (f : Z) (l : list Z) :
  NoDup l → f ∈ l → ∃ l', l ≡ₚ f :: l' ∧ f ∉ l'.
Proof.
  intros Hnd (l1 & l2 & ->)%list_elem_of_split.
  exists (l1 ++ l2). split; [by rewrite Permutation_middle|].
  apply NoDup_app in Hnd as (_ & Hl1 & [Hl2 _]%NoDup_cons).
  intros [?|?]%elem_of_app; [|done]. apply (Hl1 f); [done|by left].
Qed.

Lemma wf_tracked_iff s f : wf s → f ∈ tracked s ↔ 1 ≤ count_of s f.
Proof.
  intros Hwf. unfold tracked.
  rewrite elem_of_app, (wf_early s Hwf), (wf_stable s Hwf).
  pose proof (wf_k s Hwf). lia.
Qed.

Lemma wf_size_bound s : wf s → 0 ≤ curr_size_ s ≤ current_timestamp_ s.
Proof.
  intros Hwf. rewrite (wf_size s Hwf). pose proof (wf_tracked s Hwf).
  pose proof (length_filter (λ f, is_evictable s f = true) (tracked s)). lia.
Qed.

(** Reading [evictable_[f]] or [recorded_cnt_[f]] of an absent key creates
    the entry and changes nothing else. *)
Lemma filter_evictable_subscript (m : gmap Z bool) f (l : list Z) :
  filter (λ g, at_default false (subscript false m f) g = true) l =
  filter (λ g, at_default false m g = true) l.
Proof. apply list_filter_iff. intros g. by rewrite at_default_subscript. Qed.

Lemma wf_subscript_evictable s f :
  wf s → f ≤ static_cast_frame_id_t (replacer_size_ s) →
  wf (set_evictable_ (subscript false (evictable_ s) f) s).
Proof.
  intros Hwf Hf. open_wf Hwf. split; observe; try done.
  - by rewrite filter_evictable_subscript.
  - intros g Hg. apply subscript_lookup_is_Some. right. auto.
  - intros g [<-|Hg]%subscript_lookup_is_Some; auto.
  - intros g. rewrite at_default_subscript. auto.
Qed.

Lemma wf_subscript_cnt s f :
  wf s → wf (set_recorded_cnt_ (subscript 0 (recorded_cnt_ s) f) s).
Proof.
  intros Hwf. open_wf Hwf.
  split; observe; try done; intros g; rewrite ?at_default_subscript; auto.
  intros Hg. apply subscript_lookup_is_Some. right. auto.
Qed.

Lemma filter_evictable_insert (m : gmap Z bool) f b (l : list Z) :
  f ∉ l →
  filter (λ g, at_default false (<[f := b]> m) g = true) l =
  filter (λ g, at_default false m g = true) l.
Proof.
  intros Hf. apply filter_ext_elem_of. intros g Hg.
  rewrite at_default_insert_ne; [done|]. by intros ->.
Qed.

Lemma wf_flip s f b :
  wf s → 1 ≤ count_of s f → is_evictable s f = negb b →
  wf (set_curr_size_ (if b then curr_size_ s + 1 else curr_size_ s - 1)
        (set_evictable_ (<[f := b]> (evictable_ s)) s)).
Proof.
  intros Hwf Hcnt Hev.
  destruct (NoDup_elem_of_front f (tracked s)) as (l' & Hperm & Hfl').
  { by apply wf_nodup. } { by apply wf_tracked_iff. }
  pose proof (wf_size s Hwf) as Hsize.
  pose proof (wf_flag s Hwf f Hcnt) as Hflag.
  pose proof (wf_range s Hwf f Hflag) as Hrange.
  open_wf Hwf. split; observe; try done.
  - rewrite Hperm, filter_cons, at_default_insert_eq, filter_evictable_insert
      by done.
    rewrite Hperm, filter_cons, Hev in Hsize.
    destruct b; simpl in *; lia.
  - intros g Hg. rewrite lookup_insert_is_Some. destruct (decide (f = g)); auto.
  - intros g [<-|[_ Hg]]%lookup_insert_is_Some; auto.
  - intros g. rewrite at_default_insert.
    destruct (decide (f = g)) as [<-|]; [|auto].
    intros _. destruct (recorded_cnt_ s !! f) eqn:Hf; [done|].
    unfold at_default in Hcnt. rewrite Hf in Hcnt. simpl in Hcnt. lia.
Qed.

Lemma SetEvictable_wf s f b o :
  wf s → state_after (SetEvictable f b s) = Some o → wf o.
Proof.
  intros Hwf. unfold SetEvictable.
  destruct (Z.ltb_spec (static_cast_frame_id_t (replacer_size_ s)) f) as [|Hf];
    simpl; [by intros [= <-]|].
  pose proof (wf_subscript_evictable s f Hwf Hf) as Hwf1.
  case_bool_decide as Hsame; simpl; [by intros [= <-]|].
  set (s1 := set_evictable_ _ s) in *.
  pose proof (wf_subscript_cnt s1 f Hwf1) as Hwf2.
  destruct (Z.eqb_spec (at_default 0 (recorded_cnt_ s) f) 0) as [|Hcnt];
    simpl; [by intros [= <-]|].
  set (s2 := set_recorded_cnt_ _ s1) in *.
  assert (1 ≤ count_of s2 f) as Hcnt2.
  { pose proof (wf_count s Hwf f). subst s1 s2. observe.
    rewrite at_default_subscript. lia. }
  assert (is_evictable s2 f = negb b) as Hev2.
  { subst s1 s2. observe. rewrite at_default_subscript.
    destruct (at_default false (evictable_ s) f), b; done. }
  pose proof (wf_flip s2 f b Hwf2 Hcnt2 Hev2) as Hwf3.
  pose proof (wf_size_bound s2 Hwf2) as Hb. pose proof (wf_clock s2 Hwf2) as Hc.
  assert (1 ≤ curr_size_ s2 ∨ b = true) as Hpos.
  { destruct b; [by right|left]. rewrite (wf_size s2 Hwf2).
    destruct (NoDup_elem_of_front f (tracked s2)) as (l' & Hperm & Hfl').
    { by apply wf_nodup. } { by apply wf_tracked_iff. }
    rewrite Hperm, filter_cons, Hev2. simpl. lia. }
  assert (b = true → curr_size_ s2 + 1 < size_t_modulus) as Hlt.
  { intros ->. rewrite (wf_size s2 Hwf2).
    destruct (NoDup_elem_of_front f (tracked s2)) as (l' & Hperm & Hfl').
    { by apply wf_nodup. } { by apply wf_tracked_iff. }
    pose proof (wf_tracked s2 Hwf2) as Ht.
    rewrite Hperm in Ht. rewrite Hperm, filter_cons, Hev2. simpl in *.
    pose proof (length_filter (λ f, is_evictable s2 f = true) l'). lia. }
  destruct b; simpl; intros [= <-].
  - rewrite wrap_size_t_small; [exact Hwf3|]. simpl.
    specialize (Hlt eq_refl). simpl in *. lia.
  - rewrite wrap_size_t_small; [exact Hwf3|].
    destruct Hpos; [|done]. simpl in *. lia.
Qed.

Lemma wf_retire_early s f l1 l2 :
  wf s → new_frame_ s = l1 ++ f :: l2 → is_evictable s f = true →
  wf (retire_early f (l1 ++ l2) s).
Proof.
  intros Hwf Hnf Hev.
  pose proof (wf_nodup s Hwf) as Hnd.
  destruct (list_unlink _ l1 l2 f Hnf) as (Hin & Hout & Hperm1 & Hmem).
  { by apply NoDup_app in Hnd as (? & _). }
  pose proof (proj1 (wf_early s Hwf f) Hin) as Hcnt.
  assert (tracked s ≡ₚ f :: (l1 ++ l2) ++ (cache_frame_ s).*1) as Hperm.
  { unfold tracked. by rewrite Hperm1. }
  rewrite Hperm in Hnd. apply NoDup_cons in Hnd as [Hfresh Hnd].
  pose proof (wf_size s Hwf) as Hsize. rewrite Hperm, filter_cons, Hev in Hsize.
  pose proof (wf_tracked s Hwf) as Hlen. rewrite Hperm in Hlen.
  open_wf Hwf. split; observe; try done.
  - intros g. by_frame f g; [split; [done|lia]|].
    rewrite Hmem by done. apply I_early.
  - intros g. by_frame f g; [|apply I_stable].
    split; [|lia]. intros Hf. destruct Hfresh. apply elem_of_app. by right.
  - intros g. by_frame f g; [lia|auto].
  - intros g. by_frame f g; simpl; [lia|auto].
  - intros g Hg. assert (g ≠ f) as Hne by (by intros ->).
    rewrite lookup_delete_ne by done. by apply I_new_locate, Hmem.
  - intros g t Hg. rewrite at_default_insert_ne; [by apply I_kth|].
    intros ->. apply Hfresh, elem_of_app. right.
    by apply (list_elem_of_fmap_2 fst) in Hg.
  - lia.
  - simpl in Hlen. lia.
  - intros g. by_frame f g; [lia|auto].
  - intros g Hg. apply lookup_insert_is_Some. destruct (decide (f = g)); auto.
Qed.

Lemma wf_retire_stable s f t l1 l2 :
  wf s → cache_frame_ s = l1 ++ (f, t) :: l2 → is_evictable s f = true →
  wf (retire_stable f (l1 ++ l2) s).
Proof.
  intros Hwf Hcf Hev.
  pose proof (wf_nodup s Hwf) as Hnd. pose proof (wf_k s Hwf) as Hk.
  destruct (ranked_unlink _ l1 l2 f t Hcf) as (Hout & Hperm1 & Hmem & Hsort).
  { by apply NoDup_app in Hnd as (_ & _ & ?). }
  assert (k_ s ≤ count_of s f) as Hcnt.
  { apply (wf_stable s Hwf). rewrite Hperm1. by left. }
  assert (tracked s ≡ₚ f :: new_frame_ s ++ (l1 ++ l2).*1) as Hperm.
  { unfold tracked. rewrite Hperm1. by rewrite <- Permutation_middle. }
  rewrite Hperm in Hnd. apply NoDup_cons in Hnd as [Hfresh Hnd].
  pose proof (wf_size s Hwf) as Hsize. rewrite Hperm, filter_cons, Hev in Hsize.
  pose proof (wf_tracked s Hwf) as Hlen. rewrite Hperm in Hlen.
  open_wf Hwf. split; observe; try done.
  - intros g. by_frame f g; [|apply I_early].
    split; [|lia]. intros Hf. destruct Hfresh. apply elem_of_app. by left.
  - intros g. by_frame f g; [split; [done|lia]|].
    rewrite <- I_stable, Hperm1, elem_of_cons. split; [by right|].
    by intros [->|?].
  - intros g. by_frame f g; [lia|auto].
  - intros g. by_frame f g; simpl; [lia|auto].
  - intros g u [Hg Hne]%Hmem. rewrite lookup_delete_ne by (by intros ->).
    by apply I_cache_locate.
  - intros g u [Hg Hne]%Hmem. rewrite at_default_insert_ne by (by intros ->).
    by apply I_kth.
  - by apply Hsort.
  - lia.
  - simpl in Hlen. lia.
  - intros g. by_frame f g; [lia|auto].
  - intros g Hg. apply lookup_insert_is_Some. destruct (decide (f = g)); auto.
Qed.

Lemma set_evictable_same s : set_evictable_ (evictable_ s) s = s.
Proof. by destruct s. Qed.

Lemma filter_all {A} (P : A → Prop) `{∀ x, Decision (P x)} (l : list A) :
  Forall P l → filter P l = l.
Proof.
  induction 1 as [|y l Hy _ IH]; [done|]. by rewrite filter_cons_True, IH.
Qed.

Lemma list_remove_middle (f : Z) (l1 l2 : list Z) :
  f ∉ l1 → f ∉ l2 → list_remove f (l1 ++ f :: l2) = l1 ++ l2.
Proof.
  intros H1 H2. unfold list_remove.
  rewrite filter_app, filter_cons_False by (intros Hf; by apply Hf).
  f_equal; apply filter_all, Forall_forall; by intros g Hg ->.
Qed.

Lemma not_evictable_size s :
  wf s → Forall (λ f, is_evictable s f = false) (tracked s) ↔ Size s = 0.
Proof.
  intros Hwf. unfold Size. rewrite (wf_size s Hwf). split.
  - intros Hall. rewrite filter_none; [done|].
    eapply Forall_impl; [exact Hall|]. simpl. by intros f ->.
  - intros Hlen. apply Forall_forall. intros f Hf.
    destruct (is_evictable s f) eqn:Hev; [|done].
    assert (f ∈ filter (λ f, is_evictable s f = true) (tracked s)) as Hin
      by by apply list_elem_of_filter.
    destruct (filter _ (tracked s)); [by apply not_elem_of_nil in Hin|].
    simpl in Hlen. lia.
Qed.

Lemma wf_tracked_flag s f : wf s → f ∈ tracked s → is_Some (evictable_ s !! f).
Proof. intros Hwf Hf. by apply (wf_flag s Hwf), wf_tracked_iff. Qed.

(** What [Evict] does in a well-formed state. *)
Lemma Evict_cases s :
  wf s →
  (Forall (λ f, is_evictable s f = false) (tracked s) ∧
   Evict s = Return None s) ∨
  (∃ f newer older,
     new_frame_ s = newer ++ f :: older ∧
     is_evictable s f = true ∧
     Forall (λ g, is_evictable s g = false) older ∧
     Evict s = Return (Some f) (retire_early f (newer ++ older) s)) ∨
  (∃ f t before after,
     Forall (λ g, is_evictable s g = false) (new_frame_ s) ∧
     cache_frame_ s = before ++ (f, t) :: after ∧
     is_evictable s f = true ∧
     Forall (λ p, is_evictable s p.1 = false) before ∧
     Evict s = Return (Some f) (retire_stable f (before ++ after) s)).
Proof.
  intros Hwf. pose proof (not_evictable_size s Hwf) as Hzero.
  unfold Evict. destruct (Z.eqb_spec (Size s) 0) as [Hsz|Hsz].
  { left. split; [by apply Hzero|done]. }
  right.
  assert (1 ≤ curr_size_ s < size_t_modulus) as Hsize.
  { pose proof (wf_size_bound s Hwf). pose proof (wf_clock s Hwf).
    unfold Size in Hsz. lia. }
  pose proof (wf_nodup s Hwf) as Hnd.
  pose proof (find_evictable_spec id 0 (reverse (new_frame_ s)) (evictable_ s))
    as Hscan.
  destruct (find_evictable id 0 (reverse (new_frame_ s)) (evictable_ s))
    as [[[j f]|] ev].
  - destruct Hscan as (-> & Hev & l1 & l2 & Hrev & _ & Hall).
    { intros g Hg. rewrite elem_of_reverse in Hg.
      apply wf_tracked_flag; [done|]. apply elem_of_app. by left. }
    apply (f_equal reverse) in Hrev.
    rewrite reverse_involutive, reverse_app, reverse_cons, <- app_assoc in Hrev.
    simpl in Hrev. left. exists f, (reverse l2), (reverse l1).
    split_and!; [done|done|by apply Forall_reverse|].
    unfold tracked in Hnd. rewrite Hrev in Hnd.
    apply NoDup_app in Hnd as (Hnd & _ & _).
    apply NoDup_app in Hnd as (_ & Hl & [Hr _]%NoDup_cons).
    rewrite set_evictable_same. simpl. rewrite wrap_size_t_small by lia.
    rewrite Hrev, list_remove_middle; [done| |done].
    intros Hf. apply (Hl f Hf). by left.
  - destruct Hscan as [-> Hearly].
    { intros g Hg. rewrite elem_of_reverse in Hg.
      apply wf_tracked_flag; [done|]. apply elem_of_app. by left. }
    rewrite Forall_reverse in Hearly.
    pose proof (find_evictable_spec fst 0 (cache_frame_ s) (evictable_ s))
      as Hscan.
    destruct (find_evictable fst 0 (cache_frame_ s) (evictable_ s))
      as [[[j [f t]]|] ev].
    + destruct Hscan as (-> & Hev & l1 & l2 & Hcf & -> & Hall).
      { intros p Hp. apply wf_tracked_flag; [done|]. apply elem_of_app. right.
        by apply list_elem_of_fmap_2. }
      right. exists f, t, l1, l2.
      split_and!; [exact Hearly|exact Hcf|exact Hev|exact Hall|].
      rewrite set_evictable_same. simpl. rewrite wrap_size_t_small by lia.
      by rewrite Hcf, delete_middle.
    + destruct Hscan as [-> Hstable].
      { intros p Hp. apply wf_tracked_flag; [done|]. apply elem_of_app. right.
        by apply list_elem_of_fmap_2. }
      destruct Hsz. apply Hzero. unfold tracked. apply Forall_app.
      split; [done|].
      by apply Forall_fmap.
Qed.

Lemma Evict_wf s o : wf s → state_after (Evict s) = Some o → wf o.
Proof.
  intros Hwf.
  destruct (Evict_cases s Hwf) as
    [[_ ->]|[(f & l1 & l2 & Hnf & Hev & _ & ->)
            |(f & t & l1 & l2 & _ & Hcf & Hev & _ & ->)]];
    simpl; intros [= <-];
    [done|by eapply wf_retire_early|by eapply wf_retire_stable].
Qed.

Lemma set_recorded_cnt_same s : set_recorded_cnt_ (recorded_cnt_ s) s = s.
Proof. by destruct s. Qed.

Lemma at_default_lookup {V} (d : V) (m : gmap Z V) k v :
  m !! k = Some v → at_default d m k = v.
Proof. unfold at_default. by intros ->. Qed.

Lemma wf_stable_node s f :
  wf s → k_ s ≤ count_of s f → ∃ t, (f, t) ∈ cache_frame_ s.
Proof.
  intros Hwf Hf. apply (wf_stable s Hwf) in Hf.
  apply list_elem_of_fmap in Hf as ([g t] & -> & Hin). by exists t.
Qed.

(** What [Remove] does in a well-formed state. *)
Lemma Remove_cases s f :
  wf s →
  ((static_cast_frame_id_t (replacer_size_ s) < f ∨
    (is_Some (evictable_ s !! f) ∧ is_evictable s f = false)) ∧
   Remove f s = Throw s) ∨
  (f ≤ static_cast_frame_id_t (replacer_size_ s) ∧ evictable_ s !! f = None ∧
   Remove f s = Throw (set_evictable_ (<[f := false]> (evictable_ s)) s)) ∨
  (f ≤ static_cast_frame_id_t (replacer_size_ s) ∧ is_evictable s f = true ∧
   ((count_of s f = 0 ∧ Remove f s = Return tt s) ∨
    (∃ l1 l2, 1 ≤ count_of s f < k_ s ∧ new_frame_ s = l1 ++ f :: l2 ∧
       Remove f s = Return tt (retire_early f (l1 ++ l2) s)) ∨
    (∃ t l1 l2, k_ s ≤ count_of s f ∧ cache_frame_ s = l1 ++ (f, t) :: l2 ∧
       Remove f s = Return tt (retire_stable f (l1 ++ l2) s)))).
Proof.
  intros Hwf. unfold Remove.
  destruct (Z.ltb_spec (static_cast_frame_id_t (replacer_size_ s)) f)
    as [Hf|Hf].
  { left. split; [by left|done]. }
  fold (is_evictable s f). destruct (is_evictable s f) eqn:Hev; simpl.
  2:{ destruct (evictable_ s !! f) as [b|] eqn:Hentry.
      - left. split; [right; split; [by eexists|done]|].
        by rewrite subscript_is_Some, set_evictable_same by by eexists.
      - right. left. split_and!; [done..|]. unfold subscript.
        by rewrite Hentry. }
  right. right. split_and!; [done..|].
  assert (is_Some (evictable_ s !! f)) as Hentry.
  { unfold is_evictable, at_default in Hev. by destruct (evictable_ s !! f). }
  rewrite (subscript_is_Some _ (evictable_ s)), set_evictable_same by done.
  rewrite subscript_is_Some, set_recorded_cnt_same by by apply wf_entry.
  fold (count_of s f). pose proof (wf_count s Hwf f) as Hcnt.
  pose proof (wf_size_bound s Hwf) as Hsz. pose proof (wf_clock s Hwf) as Hclk.
  destruct (Z.eqb_spec (count_of s f) 0) as [Hzero|Hpos]; [by left|].
  right.
  assert (1 ≤ curr_size_ s) as Hone.
  { destruct (Z.eq_dec (curr_size_ s) 0) as [Hs|]; [|lia].
    apply (not_evictable_size s Hwf) in Hs.
    rewrite Forall_forall in Hs. rewrite Hs in Hev; [done|].
    apply wf_tracked_iff; [done|lia]. }
  destruct (Z.ltb_spec (count_of s f) (k_ s)) as [Hlt|Hge].
  - left. assert (f ∈ new_frame_ s) as Hin by (apply (wf_early s Hwf); lia).
    rewrite (at_default_lookup _ _ _ _ (wf_new_locate s Hwf f Hin)). simpl.
    destruct (erase_node_elem_of f _ Hin) as [l Hl].
    destruct (erase_node_Some _ _ _ Hl) as (l1 & l2 & Hnf & ->).
    exists l1, l2. split; [lia|]. split; [done|].
    rewrite Hl. simpl. by rewrite wrap_size_t_small by lia.
  - right. destruct (wf_stable_node s f Hwf Hge) as [t Hin].
    rewrite (at_default_lookup _ _ _ _ (wf_cache_locate s Hwf f t Hin)). simpl.
    destruct (erase_node_elem_of (f, t) _ Hin) as [l Hl].
    destruct (erase_node_Some _ _ _ Hl) as (l1 & l2 & Hcf & ->).
    exists t, l1, l2. split; [lia|]. split; [done|].
    rewrite Hl. simpl. by rewrite wrap_size_t_small by lia.
Qed.

Lemma Remove_wf s f o : wf s → state_after (Remove f s) = Some o → wf o.
Proof.
  intros Hwf.
  destruct (Remove_cases s f Hwf) as
    [[_ ->]|[(Hf & Hnone & ->)|(Hf & Hev &
      [[_ ->]|[(l1 & l2 & _ & Hnf & ->)|(t & l1 & l2 & _ & Hcf & ->)]])]];
    simpl; intros [= <-]; try done.
  - assert (set_evictable_ (<[f := false]> (evictable_ s)) s =
            set_evictable_ (subscript false (evictable_ s) f) s) as ->.
    { unfold subscript. by rewrite Hnone. }
    by apply wf_subscript_evictable.
  - by eapply wf_retire_early.
  - by eapply wf_retire_stable.
Qed.

Lemma history_of_untracked s f : wf s → count_of s f = 0 → history_of s f = [].
Proof.
  intros Hwf Hc. pose proof (wf_hist s Hwf f) as Hlen. pose proof (wf_k s Hwf).
  apply nil_length_inv. lia.
Qed.

Lemma history_of_tracked s f :
  wf s → 1 ≤ count_of s f → ∃ t h, history_of s f = t :: h.
Proof.
  intros Hwf Hc. pose proof (wf_hist s Hwf f) as Hlen. pose proof (wf_k s Hwf).
  destruct (history_of s f) as [|t h]; [simpl in Hlen; lia|by eauto].
Qed.

(** ** [RecordAccess], case by case *)

(** As long as the clock does not wrap around, no counter does. *)
Lemma counters_do_not_wrap s f :
  wf s → current_timestamp_ s + 1 < size_t_modulus →
  wrap_size_t (current_timestamp_ s + 1) = current_timestamp_ s + 1 ∧
  wrap_size_t (at_default 0 (recorded_cnt_ s) f + 1) = count_of s f + 1 ∧
  wrap_size_t (curr_size_ s + 1) = curr_size_ s + 1.
Proof.
  intros Hwf Hclock.
  pose proof (wf_clock s Hwf). pose proof (wf_count s Hwf f).
  pose proof (wf_size_bound s Hwf). fold (count_of s f).
  split_and!; apply wrap_size_t_small; lia.
Qed.

Section record_access.
Variables (s : LRUKReplacer) (f : Z).
Hypothesis Hwf : wf s.
Hypothesis Hrange : f ≤ static_cast_frame_id_t (replacer_size_ s).
Hypothesis Hclock : current_timestamp_ s + 1 < size_t_modulus.

Lemma RecordAccess_prefix :
  (static_cast_frame_id_t (replacer_size_ s) <? f) = false ∧
  wrap_size_t (current_timestamp_ s + 1) = current_timestamp_ s + 1 ∧
  wrap_size_t (at_default 0 (recorded_cnt_ s) f + 1) = count_of s f + 1 ∧
  wrap_size_t (curr_size_ s + 1) = curr_size_ s + 1.
Proof.
  split; [by apply Z.ltb_ge|by apply counters_do_not_wrap].
Qed.

Ltac start :=
  destruct RecordAccess_prefix as (Hr & Hts & Hcnt & Hsz);
  unfold RecordAccess, RecordAccess_begin; rewrite Hr; fields;
  rewrite Hcnt, Hts, !at_default_insert_eq.

Lemma RecordAccess_first_early :
  count_of s f = 0 → 1 < k_ s →
  RecordAccess f s =
  Return tt (enter_early f (accessed f [current_timestamp_ s + 1] s)).
Proof.
  intros Hc Hk. start. fold (history_of s f).
  rewrite (history_of_untracked s f Hwf Hc), Hc.
  change (0 + 1 =? 1) with true. fields. rewrite Hsz, !at_default_insert_eq.
  destruct (Z.eqb_spec (0 + 1) (k_ s)); [lia|].
  destruct (Z.ltb_spec (k_ s) (0 + 1)); [lia|].
  unfold enter_early, accessed. fields. by rewrite Hc.
Qed.

Lemma RecordAccess_first_stable :
  count_of s f = 0 → k_ s = 1 →
  ∃ c1 c2,
    cache_frame_ s = c1 ++ c2 ∧
    Forall (λ y, y.2 ≤ current_timestamp_ s + 1) c1 ∧
    Forall (λ y, current_timestamp_ s + 1 < y.2) c2 ∧
    RecordAccess f s =
    Return tt
      (enter_stable f (current_timestamp_ s + 1)
         (c1 ++ (f, current_timestamp_ s + 1) :: c2)
         (leave_early f (new_frame_ s)
            (enter_early f (accessed f [current_timestamp_ s + 1] s)))).
Proof.
  intros Hc Hk. start. fold (history_of s f).
  rewrite (history_of_untracked s f Hwf Hc), Hc.
  change (0 + 1 =? 1) with true. fields. rewrite Hk, Hsz, !at_default_insert_eq.
  change (0 + 1 =? 1) with true. fields.
  simpl list_erase. rewrite decide_True by done. fields.
  unfold insert_ranked. fields. rewrite at_default_insert_eq. simpl app.
  destruct (upper_bound_insert (f, current_timestamp_ s + 1) (cache_frame_ s))
    as (c1 & c2 & Hcf & Hins & Hle & Hgt).
  exists c1, c2. split_and!; [done|done|by apply Hgt, wf_sorted|].
  rewrite Hins. unfold enter_stable, leave_early, enter_early, accessed.
  fields. by rewrite Hc.
Qed.

Lemma RecordAccess_early :
  1 ≤ count_of s f → count_of s f + 1 < k_ s →
  RecordAccess f s =
  Return tt (accessed f (history_of s f ++ [current_timestamp_ s + 1]) s).
Proof.
  intros Hc Hk. start.
  destruct (Z.eqb_spec (count_of s f + 1) 1); [lia|]. fields.
  rewrite ?at_default_insert_eq.
  destruct (Z.eqb_spec (count_of s f + 1) (k_ s)); [lia|].
  destruct (Z.ltb_spec (k_ s) (count_of s f + 1)); [lia|].
  reflexivity.
Qed.

Lemma RecordAccess_promote :
  1 ≤ count_of s f → count_of s f + 1 = k_ s →
  ∃ t l1 l2 c1 c2,
    new_frame_ s = l1 ++ f :: l2 ∧
    head (history_of s f) = Some t ∧
    cache_frame_ s = c1 ++ c2 ∧
    Forall (λ y, y.2 ≤ t) c1 ∧ Forall (λ y, t < y.2) c2 ∧
    RecordAccess f s =
    Return tt
      (enter_stable f t (c1 ++ (f, t) :: c2)
         (leave_early f (l1 ++ l2)
            (accessed f (history_of s f ++ [current_timestamp_ s + 1]) s))).
Proof.
  intros Hc Hk. start.
  destruct (Z.eqb_spec (count_of s f + 1) 1); [lia|]. fields.
  rewrite ?at_default_insert_eq.
  destruct (Z.eqb_spec (count_of s f + 1) (k_ s)); [|lia].
  assert (f ∈ new_frame_ s) as Hin by (apply (wf_early s Hwf); lia).
  rewrite (at_default_lookup _ _ _ _ (wf_new_locate s Hwf f Hin)).
  simpl list_erase. destruct (erase_node_elem_of f _ Hin) as [l Hl].
  destruct (erase_node_Some _ _ _ Hl) as (l1 & l2 & Hnf & ->).
  rewrite Hl. unfold insert_ranked. fields. rewrite at_default_insert_eq.
  fold (history_of s f).
  destruct (history_of_tracked s f Hwf Hc) as (t & h & Hh). rewrite Hh.
  simpl app.
  destruct (upper_bound_insert (f, t) (cache_frame_ s))
    as (c1 & c2 & Hcf & Hins & Hle & Hgt).
  exists t, l1, l2, c1, c2.
  split_and!; [done|done|done|done|by apply Hgt, wf_sorted|].
  by rewrite Hins.
Qed.

Lemma RecordAccess_rerank :
  k_ s ≤ count_of s f →
  ∃ t t' h a b c1 c2,
    history_of s f ++ [current_timestamp_ s + 1] = t :: h ∧
    head h = Some t' ∧
    cache_frame_ s = a ++ (f, t) :: b ∧
    a ++ b = c1 ++ c2 ∧
    Forall (λ y, y.2 ≤ t') c1 ∧ Forall (λ y, t' < y.2) c2 ∧
    RecordAccess f s =
    Return tt (enter_stable f t' (c1 ++ (f, t') :: c2)
                 (set_cache_frame_ (a ++ b) (accessed f h s))).
Proof.
  intros Hk. pose proof (wf_k s Hwf) as Hk1. start.
  destruct (Z.eqb_spec (count_of s f + 1) 1); [lia|]. fields.
  rewrite ?at_default_insert_eq.
  destruct (Z.eqb_spec (count_of s f + 1) (k_ s)); [lia|].
  destruct (Z.ltb_spec (k_ s) (count_of s f + 1)); [|lia].
  fold (history_of s f).
  destruct (history_of_tracked s f Hwf ltac:(lia)) as (t & h & Hh).
  rewrite Hh. simpl app. fields.
  destruct (wf_stable_node s f Hwf Hk) as [u Hin].
  pose proof (wf_kth s Hwf f u Hin) as Hu. rewrite Hh in Hu.
  injection Hu as <-.
  rewrite (at_default_lookup _ _ _ _ (wf_cache_locate s Hwf f t Hin)).
  simpl list_erase. destruct (erase_node_elem_of (f, t) _ Hin) as [l Hl].
  destruct (erase_node_Some _ _ _ Hl) as (a & b & Hcf & ->).
  rewrite Hl. unfold insert_ranked. fields. rewrite at_default_insert_eq.
  destruct (h ++ [current_timestamp_ s + 1]) as [|t' h'] eqn:Hh';
    [by destruct h|].
  destruct (upper_bound_insert (f, t') (a ++ b))
    as (c1 & c2 & Hab & Hins & Hle & Hgt).
  exists t, t', (t' :: h'), a, b, c1, c2.
  split_and!; [done|done|done|done|done| |].
  - apply Hgt. pose proof (wf_sorted s Hwf) as Hs. rewrite Hcf in Hs.
    apply StronglySorted_app in Hs as (H12 & Hs1 & [_ Hs2]%StronglySorted_cons).
    apply StronglySorted_app. split_and!; [|done..].
    intros x y Hx Hy. apply H12; [done|by right].
  - rewrite ?at_default_insert_eq, Hins. unfold enter_stable, accessed. fields.
    by rewrite insert_insert_eq.
Qed.
End record_access.

Section record_access_wf.
Variables (s : LRUKReplacer) (f : Z).
Hypothesis Hwf : wf s.
Hypothesis Hclock : current_timestamp_ s + 1 < size_t_modulus.

Lemma wf_accessed_early :
  1 ≤ count_of s f → count_of s f + 1 < k_ s →
  wf (accessed f (history_of s f ++ [current_timestamp_ s + 1]) s).
Proof.
  intros Hc Hk.
  assert (f ∈ new_frame_ s) as Hin by (apply (wf_early s Hwf); lia).
  assert (f ∉ (cache_frame_ s).*1) as Hout by (rewrite (wf_stable s Hwf); lia).
  pose proof (wf_flag s Hwf f Hc) as Hflag.
  pose proof (wf_hist s Hwf f) as Hlen.
  pose proof (wf_count s Hwf f) as Hcf.
  open_wf Hwf. split; observe; try done; try lia.
  - intros g. by_frame f g; [|done]. split; [lia|done].
  - intros g. by_frame f g; [|done]. split; [done|lia].
  - intros g. by_frame f g; [lia|]. specialize (I_count g). lia.
  - intros g. by_frame f g; [|done]. rewrite length_app. simpl. lia.
  - intros g t Hg. by_frame f g; [|by apply I_kth].
    destruct Hout. by apply (list_elem_of_fmap_2 fst) in Hg.
  - intros g. by_frame f g; [done|auto].
  - intros g Hg. apply lookup_insert_is_Some. destruct (decide (f = g)); auto.
Qed.

Lemma wf_first_early :
  f ≤ static_cast_frame_id_t (replacer_size_ s) →
  count_of s f = 0 → 1 < k_ s →
  wf (enter_early f (accessed f [current_timestamp_ s + 1] s)).
Proof.
  intros Hrange Hc Hk.
  assert (f ∉ tracked s) as Hout by (rewrite wf_tracked_iff by done; lia).
  pose proof (wf_size_bound s Hwf) as Hsz.
  pose proof (wf_count s Hwf f) as Hcf.
  pose proof (wf_hist s Hwf f) as Hlen.
  open_wf Hwf. split; observe; try done; try lia.
  - by apply NoDup_cons.
  - intros g. rewrite elem_of_cons. by_frame f g.
    + split; [lia|by left].
    + rewrite I_early. split; [by intros [->|?]|by right].
  - intros g. by_frame f g; [|done]. split; [|lia].
    intros Hg. destruct Hout. apply elem_of_app. by right.
  - intros g. by_frame f g; [lia|]. specialize (I_count g). lia.
  - intros g. by_frame f g; [|done]. simpl. lia.
  - intros g [->|Hg]%elem_of_cons; [by rewrite lookup_insert_eq|].
    rewrite lookup_insert_ne; [auto|]. intros ->. apply Hout, elem_of_app.
    by left.
  - intros g t Hg. by_frame f g; [|by apply I_kth].
    destruct Hout. apply elem_of_app. right.
    by apply (list_elem_of_fmap_2 fst) in Hg.
  - rewrite filter_cons, at_default_insert_eq. simpl.
    rewrite filter_evictable_insert by done. lia.
  - intros g Hg. apply lookup_insert_is_Some.
    destruct (decide (f = g)); [by left|].
    right. split; [done|]. apply I_flag. by rewrite at_default_insert_ne in Hg.
  - intros g [<-|[_ Hg]]%lookup_insert_is_Some; auto.
  - intros g Hg. apply lookup_insert_is_Some.
    destruct (decide (f = g)); [by left|].
    right. split; [done|]. apply I_entry. by rewrite at_default_insert_ne in Hg.
Qed.
End record_access_wf.

Section record_access_stable_wf.
Variables (s : LRUKReplacer) (f : Z).
Hypothesis Hwf : wf s.
Hypothesis Hclock : current_timestamp_ s + 1 < size_t_modulus.

Lemma wf_first_stable c1 c2 :
  f ≤ static_cast_frame_id_t (replacer_size_ s) →
  count_of s f = 0 → k_ s = 1 →
  cache_frame_ s = c1 ++ c2 →
  Forall (λ y, y.2 ≤ current_timestamp_ s + 1) c1 →
  Forall (λ y, current_timestamp_ s + 1 < y.2) c2 →
  wf (enter_stable f (current_timestamp_ s + 1)
        (c1 ++ (f, current_timestamp_ s + 1) :: c2)
        (leave_early f (new_frame_ s)
           (enter_early f (accessed f [current_timestamp_ s + 1] s)))).
Proof.
  intros Hrange Hc Hk Hcf Hle Hgt.
  assert (f ∉ tracked s) as Hout by (rewrite wf_tracked_iff by done; lia).
  assert (f ∉ new_frame_ s) as Hout1.
  { intros ?. apply Hout, elem_of_app. by left. }
  assert (f ∉ (c1 ++ c2).*1) as Hout2.
  { rewrite <- Hcf. intros ?. apply Hout, elem_of_app. by right. }
  destruct (ranked_link c1 c2 f (current_timestamp_ s + 1) Hout2)
    as (Hperm & Hmem & Hsort).
  pose proof (wf_size_bound s Hwf) as Hsz.
  pose proof (wf_count s Hwf f) as Hcnt.
  pose proof (wf_hist s Hwf f) as Hlen.
  assert (new_frame_ s ++ (c1 ++ (f, current_timestamp_ s + 1) :: c2).*1
          ≡ₚ f :: tracked s) as Htr.
  { unfold tracked. rewrite Hperm, Hcf. by rewrite <- Permutation_middle. }
  open_wf Hwf. split; observe; try done; try lia.
  - rewrite Htr. by apply NoDup_cons.
  - intros g. by_frame f g; [|done]. split; [done|lia].
  - intros g. rewrite Hperm, elem_of_cons, <- Hcf, I_stable. by_frame f g.
    + split; [lia|by left].
    + split; [by intros [->|?]|by right].
  - intros g. by_frame f g; [lia|]. specialize (I_count g). lia.
  - intros g. by_frame f g; [|done]. simpl. lia.
  - intros g Hg. rewrite lookup_delete_ne, lookup_insert_ne by (by intros ->).
    auto.
  - intros g u [[-> ->]|[Hne Hg]]%Hmem; [by rewrite lookup_insert_eq|].
    rewrite lookup_insert_ne by done. apply I_cache_locate. by rewrite Hcf.
  - intros g u [[-> ->]|[Hne Hg]]%Hmem; [by rewrite at_default_insert_eq|].
    rewrite at_default_insert_ne by done. apply I_kth. by rewrite Hcf.
  - apply Hsort; [by rewrite <- Hcf|done..].
  - rewrite Htr, filter_cons, at_default_insert_eq. simpl.
    rewrite filter_evictable_insert by done. lia.
  - rewrite Htr. simpl. lia.
  - intros g Hg. apply lookup_insert_is_Some.
    destruct (decide (f = g)); [by left|].
    right. split; [done|]. apply I_flag. by rewrite at_default_insert_ne in Hg.
  - intros g [<-|[_ Hg]]%lookup_insert_is_Some; auto.
  - intros g Hg. apply lookup_insert_is_Some.
    destruct (decide (f = g)); [by left|].
    right. split; [done|]. apply I_entry. by rewrite at_default_insert_ne in Hg.
Qed.

Lemma wf_promote t l1 l2 c1 c2 :
  1 ≤ count_of s f → count_of s f + 1 = k_ s →
  new_frame_ s = l1 ++ f :: l2 →
  head (history_of s f) = Some t →
  cache_frame_ s = c1 ++ c2 →
  Forall (λ y, y.2 ≤ t) c1 → Forall (λ y, t < y.2) c2 →
  wf (enter_stable f t (c1 ++ (f, t) :: c2)
        (leave_early f (l1 ++ l2)
         (accessed f (history_of s f ++ [current_timestamp_ s + 1]) s))).
Proof.
  intros Hc Hk Hnf Hhead Hcf Hle Hgt.
  assert (f ∈ new_frame_ s) as Hin by (apply (wf_early s Hwf); lia).
  assert (f ∉ (c1 ++ c2).*1) as Hout2.
  { rewrite <- Hcf, (wf_stable s Hwf). lia. }
  destruct (ranked_link c1 c2 f t Hout2) as (Hperm & Hmem & Hsort).
  pose proof (wf_count s Hwf f) as Hcnt.
  pose proof (wf_hist s Hwf f) as Hlen.
  pose proof (wf_flag s Hwf f Hc) as Hflag.
  assert ((l1 ++ l2) ++ (c1 ++ (f, t) :: c2).*1 ≡ₚ tracked s) as Htr.
  { unfold tracked. rewrite Hperm, Hcf, Hnf.
    by rewrite <- !Permutation_middle. }
  pose proof (wf_nodup s Hwf) as Hnd. unfold tracked in Hnd. rewrite Hnf in Hnd.
  apply NoDup_app in Hnd as (Hnd & _ & _).
  apply NoDup_app in Hnd as (_ & Hl1 & [Hl2 _]%NoDup_cons).
  assert (f ∉ l1 ++ l2) as Hout1.
  { intros [?|?]%elem_of_app; [|done]. apply (Hl1 f); [done|by left]. }
  assert (∀ g, g ≠ f → g ∈ l1 ++ l2 ↔ g ∈ new_frame_ s) as Hmem1.
  { intros g Hg. rewrite Hnf, !elem_of_app, elem_of_cons. tauto. }
  open_wf Hwf. split; observe; try done; try lia.
  - rewrite Htr. apply I_nodup.
  - intros g. by_frame f g; [split; [done|lia]|].
    rewrite Hmem1 by done. apply I_early.
  - intros g. rewrite Hperm, elem_of_cons, <- Hcf, I_stable. by_frame f g.
    + split; [lia|by left].
    + split; [by intros [->|?]|by right].
  - intros g. by_frame f g; [lia|]. specialize (I_count g). lia.
  - intros g. by_frame f g; [|done]. rewrite length_app. simpl. lia.
  - intros g Hg. assert (g ≠ f) as Hne by (by intros ->).
    rewrite lookup_delete_ne by done. apply I_new_locate. by apply Hmem1.
  - intros g u [[-> ->]|[Hne Hg]]%Hmem; [by rewrite lookup_insert_eq|].
    rewrite lookup_insert_ne by done. apply I_cache_locate. by rewrite Hcf.
  - intros g u [[-> ->]|[Hne Hg]]%Hmem.
    + rewrite at_default_insert_eq.
      destruct (at_default [] (hist s) f); [done|]. by simplify_eq/=.
    + rewrite at_default_insert_ne by done. apply I_kth. by rewrite Hcf.
  - apply Hsort; [by rewrite <- Hcf|done..].
  - by rewrite Htr.
  - rewrite Htr. lia.
  - intros g. by_frame f g; [done|auto].
  - intros g Hg. apply lookup_insert_is_Some. destruct (decide (f = g)); auto.
Qed.

Lemma wf_rerank t t' h a b c1 c2 :
  k_ s ≤ count_of s f →
  history_of s f ++ [current_timestamp_ s + 1] = t :: h →
  head h = Some t' →
  cache_frame_ s = a ++ (f, t) :: b →
  a ++ b = c1 ++ c2 →
  Forall (λ y, y.2 ≤ t') c1 → Forall (λ y, t' < y.2) c2 →
  wf (enter_stable f t' (c1 ++ (f, t') :: c2)
        (set_cache_frame_ (a ++ b) (accessed f h s))).
Proof.
  intros Hk Hh Hhead Hcf Hab Hle Hgt.
  pose proof (wf_k s Hwf) as Hk1.
  pose proof (wf_nodup s Hwf) as Hnd.
  apply NoDup_app in Hnd as (_ & Hdisj & Hnd).
  destruct (ranked_unlink _ a b f t Hcf Hnd)
    as (Hout & Hperm0 & Hmem0 & Hsort0).
  rewrite Hab in Hout, Hperm0, Hmem0, Hsort0.
  destruct (ranked_link c1 c2 f t' Hout) as (Hperm & Hmem & Hsort).
  pose proof (wf_count s Hwf f) as Hcnt.
  pose proof (wf_hist s Hwf f) as Hlen.
  pose proof (wf_flag s Hwf f ltac:(lia)) as Hflag.
  assert (new_frame_ s ++ (c1 ++ (f, t') :: c2).*1 ≡ₚ tracked s) as Htr.
  { unfold tracked. by rewrite Hperm, Hperm0. }
  assert (Z.of_nat (length h) = Z.of_nat (length (history_of s f))) as Hlenh.
  { apply (f_equal length) in Hh. rewrite length_app in Hh. simpl in Hh. lia. }
  open_wf Hwf. split; observe; try done; try lia.
  - rewrite Htr. apply I_nodup.
  - intros g. by_frame f g; [|done]. rewrite I_early. lia.
  - intros g. rewrite Hperm, <- Hperm0, I_stable. by_frame f g; [lia|done].
  - intros g. by_frame f g; [lia|]. specialize (I_count g). lia.
  - intros g. by_frame f g; [lia|done].
  - intros g u [[-> ->]|[Hne Hg]]%Hmem; [by rewrite lookup_insert_eq|].
    rewrite lookup_insert_ne by done. apply I_cache_locate.
    by apply Hmem0 in Hg as [Hg _].
  - intros g u [[-> ->]|[Hne Hg]]%Hmem; [by rewrite at_default_insert_eq|].
    rewrite at_default_insert_ne by done. apply I_kth.
    by apply Hmem0 in Hg as [Hg _].
  - apply Hsort; [by apply Hsort0|done..].
  - by rewrite Htr.
  - rewrite Htr. lia.
  - intros g. by_frame f g; [done|auto].
  - intros g Hg. apply lookup_insert_is_Some. destruct (decide (f = g)); auto.
Qed.
End record_access_stable_wf.

(** ** Every call preserves the invariant *)

Lemma RecordAccess_wf s f :
  wf s → current_timestamp_ s + 1 < size_t_modulus →
  ∃ o, state_after (RecordAccess f s) = Some o ∧ wf o ∧
       current_timestamp_ s ≤ current_timestamp_ o ≤ current_timestamp_ s + 1.
Proof.
  intros Hwf Hclock.
  destruct (Z.lt_ge_cases (static_cast_frame_id_t (replacer_size_ s)) f)
    as [Hf|Hf].
  { exists s. unfold RecordAccess. rewrite (proj2 (Z.ltb_lt _ _) Hf).
    split_and!; [done|done|lia|lia]. }
  pose proof (wf_count s Hwf f) as Hcnt. pose proof (wf_k s Hwf) as Hk.
  destruct (Z.eq_dec (count_of s f) 0) as [Hzero|Hpos].
  - destruct (Z.eq_dec (k_ s) 1) as [Hone|Hmore].
    + destruct (RecordAccess_first_stable s f Hwf Hf Hclock Hzero Hone)
        as (c1 & c2 & Hcf & Hle & Hgt & ->).
      eexists. split; [done|]. split; [by apply wf_first_stable|simpl; lia].
    + rewrite (RecordAccess_first_early s f Hwf Hf Hclock Hzero) by lia.
      eexists. split; [done|].
      split; [apply wf_first_early; [done..|lia]|simpl; lia].
  - destruct (Z.lt_trichotomy (count_of s f + 1) (k_ s)) as [Hlt|[Heq|Hgt]].
    + rewrite (RecordAccess_early s f Hwf Hf Hclock) by lia.
      eexists. split; [done|].
      split; [apply wf_accessed_early; [done..|lia|lia]|simpl; lia].
    + destruct (RecordAccess_promote s f Hwf Hf Hclock ltac:(lia) Heq)
        as (t & l1 & l2 & c1 & c2 & Hnf & Hh & Hcf & Hle & Hgt & ->).
      eexists. split; [done|].
      split; [apply wf_promote; (done || lia)|simpl; lia].
    + destruct (RecordAccess_rerank s f Hwf Hf Hclock ltac:(lia))
        as (t & t' & h & a & b & c1 & c2
            & Hh & Hhead & Hcf & Hab & Hle & Hgt' & ->).
      eexists. split; [done|].
      split; [eapply wf_rerank; (done || lia)|simpl; lia].
Qed.

Lemma SetEvictable_clock s f b :
  ∃ o, state_after (SetEvictable f b s) = Some o ∧
       current_timestamp_ o = current_timestamp_ s.
Proof.
  unfold SetEvictable.
  repeat match goal with
         | |- context [if ?c then _ else _] => destruct c
         end; simpl; by eexists.
Qed.

Lemma Evict_clock s :
  wf s →
  ∃ o, state_after (Evict s) = Some o ∧
       current_timestamp_ o = current_timestamp_ s.
Proof.
  intros Hwf.
  destruct (Evict_cases s Hwf) as
    [[_ ->]|[(f & l1 & l2 & _ & _ & _ & ->)
            |(f & t & l1 & l2 & _ & _ & _ & _ & ->)]];
    simpl; by eexists.
Qed.

Lemma Remove_clock s f :
  wf s →
  ∃ o, state_after (Remove f s) = Some o ∧
       current_timestamp_ o = current_timestamp_ s.
Proof.
  intros Hwf.
  destruct (Remove_cases s f Hwf) as
    [[_ ->]|[(_ & _ & ->)|(_ & _ &
      [[_ ->]|[(l1 & l2 & _ & _ & ->)|(t & l1 & l2 & _ & _ & ->)]])]];
    simpl; by eexists.
Qed.

Lemma do_call_wf c s :
  wf s → current_timestamp_ s + 1 < size_t_modulus →
  ∃ o, do_call c s = Some o ∧ wf o ∧
       current_timestamp_ s ≤ current_timestamp_ o ≤ current_timestamp_ s + 1.
Proof.
  intros Hwf Hclock. destruct c as [f|f b| |f]; simpl.
  - by apply RecordAccess_wf.
  - destruct (SetEvictable_clock s f b) as (o & Ho & Hts). exists o.
    split_and!; [done|by eapply SetEvictable_wf|lia|lia].
  - destruct (Evict_clock s Hwf) as (o & Ho & Hts). exists o.
    split_and!; [done|by eapply Evict_wf|lia|lia].
  - destruct (Remove_clock s f Hwf) as (o & Ho & Hts). exists o.
    split_and!; [done|by eapply Remove_wf|lia|lia].
Qed.

Lemma run_wf cs s :
  wf s → current_timestamp_ s + Z.of_nat (length cs) < size_t_modulus →
  ∃ o, run cs s = Some o ∧ wf o ∧
       current_timestamp_ o ≤ current_timestamp_ s + Z.of_nat (length cs).
Proof.
  revert s. induction cs as [|c cs IH]; intros s Hwf Hclock.
  - exists s. simpl. split_and!; [done|done|lia].
  - simpl in Hclock. simpl.
    destruct (do_call_wf c s Hwf ltac:(lia)) as (s1 & -> & Hwf1 & Hts1).
    destruct (IH s1 Hwf1 ltac:(lia)) as (o & Ho & Hwfo & Htso).
    exists o. split_and!; [done|done|lia].
Qed.

(** Calls on a reachable state never run into undefined behaviour, and
    every reachable state is well formed. *)
Lemma reachable_wf s : reachable s → wf s.
Proof.
  intros (num_frames & k & cs & Hk & Hlen & Hrun).
  destruct (run_wf cs (new_LRUKReplacer num_frames k)) as (o & Ho & Hwf & _).
  { by apply wf_new. } { simpl. lia. }
  rewrite Hrun in Ho. by injection Ho as ->.
Qed.

Lemma reachable_clock s :
  reachable s → current_timestamp_ s + 1 < size_t_modulus.
Proof.
  intros (num_frames & k & cs & Hk & Hlen & Hrun).
  destruct (run_wf cs (new_LRUKReplacer num_frames k)) as (o & Ho & _ & Hts).
  { by apply wf_new. } { simpl. lia. }
  rewrite Hrun in Ho. injection Ho as ->. simpl in Hts. lia.
Qed.

Lemma run_reachable num_frames k cs :
  1 ≤ k → Z.of_nat (length cs) + 1 < size_t_modulus →
  ∃ s, run cs (new_LRUKReplacer num_frames k) = Some s ∧ reachable s.
Proof.
  intros Hk Hlen.
  destruct (run_wf cs (new_LRUKReplacer num_frames k)) as (o & Ho & _).
  { by apply wf_new. } { simpl. lia. }
  exists o. split; [done|]. by exists num_frames, k, cs.
Qed.

(** No call changes the parameters fixed at construction. *)
Lemma do_call_parameters c s o :
  do_call c s = Some o → k_ o = k_ s ∧ replacer_size_ o = replacer_size_ s.
Proof.
  destruct c as [f|f b| |f]; simpl;
    unfold RecordAccess, RecordAccess_begin, insert_ranked, SetEvictable,
      Evict, Remove;
    repeat (case_match; simpl; try done); by intros [= <-].
Qed.

Lemma run_parameters cs s o :
  run cs s = Some o → k_ o = k_ s ∧ replacer_size_ o = replacer_size_ s.
Proof.
  revert s. induction cs as [|c cs IH]; intros s; simpl.
  - by intros [= <-].
  - destruct (do_call c s) as [s1|] eqn:Hc; [|done]. intros Ho.
    apply do_call_parameters in Hc as [<- <-]. by apply IH.
Qed.

(** * The claims *)

(** C1 -- [Evict] in a reachable state.  Either no tracked frame is
    evictable and [Evict] reports that nothing was found, leaving the state
    as it is; or some frame of the Early Set is evictable and [Evict]
    returns the oldest-inserted such frame ([new_frame_] holds the newest
    frame first, so every frame behind the chosen one is pinned); or no
    frame of the Early Set is evictable and [Evict] returns the first
    evictable frame of the Stable Set, which is sorted by ascending
    Kth-back timestamp.  On success the frame's count and history are
    cleared, it is unlinked from its list and is no longer tracked, and
    [Size] drops by one. *)
Theorem Evict_early_before_stable (s : LRUKReplacer) :
  reachable s →
  (Forall (λ f, is_evictable s f = false) (tracked s) ∧
   Evict s = Return None s) ∨
  (∃ f newer older s',
     new_frame_ s = newer ++ f :: older ∧
     is_evictable s f = true ∧
     Forall (λ g, is_evictable s g = false) older ∧
     Evict s = Return (Some f) s' ∧
     count_of s' f = 0 ∧ history_of s' f = [] ∧
     new_frame_ s' = newer ++ older ∧ cache_frame_ s' = cache_frame_ s ∧
     (f ∉ tracked s') ∧ Size s' = Size s - 1) ∨
  (∃ f t before after s',
     Forall (λ g, is_evictable s g = false) (new_frame_ s) ∧
     cache_frame_ s = before ++ (f, t) :: after ∧
     StronglySorted ts_le (cache_frame_ s) ∧
     is_evictable s f = true ∧
     Forall (λ p, is_evictable s p.1 = false) before ∧
     Evict s = Return (Some f) s' ∧
     count_of s' f = 0 ∧ history_of s' f = [] ∧
     new_frame_ s' = new_frame_ s ∧ cache_frame_ s' = before ++ after ∧
     (f ∉ tracked s') ∧ Size s' = Size s - 1).
Proof.
  intros Hwf%reachable_wf.
  destruct (Evict_cases s Hwf) as
    [Hnone|[(f & l1 & l2 & Hnf & Hev & Hold & Hcall)
           |(f & t & l1 & l2 & Hearly & Hcf & Hev & Hbefore & Hcall)]].
  - by left.
  - right. left. exists f, l1, l2, (retire_early f (l1 ++ l2) s).
    assert (wf (retire_early f (l1 ++ l2) s)) as Hwf'
      by by eapply wf_retire_early.
    assert (count_of (retire_early f (l1 ++ l2) s) f = 0) as Hzero.
    { observe. by rewrite at_default_insert_eq. }
    split_and!; try done.
    + observe. by rewrite at_default_insert_eq.
    + rewrite wf_tracked_iff by done. lia.
  - right. right. exists f, t, l1, l2, (retire_stable f (l1 ++ l2) s).
    assert (wf (retire_stable f (l1 ++ l2) s)) as Hwf'
      by by eapply wf_retire_stable.
    assert (count_of (retire_stable f (l1 ++ l2) s) f = 0) as Hzero.
    { observe. by rewrite at_default_insert_eq. }
    split_and!; try done.
    + by apply wf_sorted.
    + observe. by rewrite at_default_insert_eq.
    + rewrite wf_tracked_iff by done. lia.
Qed.

Lemma Evict_early_before_stable_witness :
  (Forall (λ f, is_evictable scenario_state f = false)
     (tracked scenario_state) ∧
   Evict scenario_state = Return None scenario_state) ∨
  (∃ f newer older s',
     new_frame_ scenario_state = newer ++ f :: older ∧
     is_evictable scenario_state f = true ∧
     Forall (λ g, is_evictable scenario_state g = false) older ∧
     Evict scenario_state = Return (Some f) s' ∧
     count_of s' f = 0 ∧ history_of s' f = [] ∧
     new_frame_ s' = newer ++ older ∧
     cache_frame_ s' = cache_frame_ scenario_state ∧
     (f ∉ tracked s') ∧ Size s' = Size scenario_state - 1) ∨
  (∃ f t before after s',
     Forall (λ g, is_evictable scenario_state g = false)
       (new_frame_ scenario_state) ∧
     cache_frame_ scenario_state = before ++ (f, t) :: after ∧
     StronglySorted ts_le (cache_frame_ scenario_state) ∧
     is_evictable scenario_state f = true ∧
     Forall (λ p, is_evictable scenario_state p.1 = false) before ∧
     Evict scenario_state = Return (Some f) s' ∧
     count_of s' f = 0 ∧ history_of s' f = [] ∧
     new_frame_ s' = new_frame_ scenario_state ∧
     cache_frame_ s' = before ++ after ∧
     (f ∉ tracked s') ∧ Size s' = Size scenario_state - 1).
Proof.
  apply (Evict_early_before_stable scenario_state). reach 7 2 scenario.
Defined.

(** The scenario of the specification: frame 2, the oldest frame of the
    Early Set, is evicted, not frame 1 of the Stable Set. *)
Example Evict_scenario :
  ∃ s', Evict scenario_state = Return (Some 2) s' ∧
        new_frame_ s' = [6; 5; 4; 3] ∧ cache_frame_ s' = [(1, 7)].
Proof. eexists. split; [vm_compute; reflexivity|]. split; reflexivity. Qed.

(** The frames that count towards the size are the evictable frames of
    the two lists. *)
Lemma counted_tracked s :
  wf s →
  counted s = list_to_set (filter (λ f, is_evictable s f = true) (tracked s)).
Proof.
  intros Hwf. apply set_eq. intros f. unfold counted.
  rewrite elem_of_filter, elem_of_list_to_set, list_elem_of_filter, elem_of_dom.
  rewrite wf_tracked_iff by done. split.
  - intros [[Hc Hev] _]. split; [done|lia].
  - intros [Hev Hc]. split; [split; [lia|done]|].
    unfold count_of, at_default in Hc.
    destruct (recorded_cnt_ s !! f); [done|simpl in Hc; lia].
Qed.

Lemma wf_Size_counted s : wf s → Size s = Z.of_nat (size (counted s)).
Proof.
  intros Hwf. rewrite counted_tracked by done.
  rewrite size_list_to_set by (apply NoDup_filter, wf_nodup; done).
  apply wf_size, Hwf.
Qed.

(** C2 -- for every sequence of [RecordAccess], [SetEvictable], [Evict] and
    [Remove] calls on a replacer constructed with [k >= 1] (a sequence too
    short to wrap the 64-bit clock), the calls run without undefined
    behaviour and afterwards [Size()] is the number of frames whose access
    count is positive and whose evictable flag is set.  Every prefix of a
    sequence is a sequence, so this holds after each call. *)
Theorem Size_counts_evictable_frames (num_frames k : Z) (cs : list call) :
  1 ≤ k → Z.of_nat (length cs) + 1 < size_t_modulus →
  ∃ s, run cs (new_LRUKReplacer num_frames k) = Some s ∧
       Size s = Z.of_nat (size (counted s)).
Proof.
  intros Hk Hlen.
  destruct (run_reachable num_frames k cs Hk Hlen) as (s & Hrun & Hs).
  exists s. split; [done|]. by apply wf_Size_counted, reachable_wf.
Qed.

Lemma Size_counts_evictable_frames_witness :
  ∃ s, run scenario (new_LRUKReplacer 7 2) = Some s ∧
       Size s = Z.of_nat (size (counted s)).
Proof.
  apply (Size_counts_evictable_frames 7 2 scenario); [lia|].
  vm_compute. reflexivity.
Defined.

(** C3 -- for a replacer constructed with [k >= 1], after any sequence of
    calls (in particular any sequence of [RecordAccess] calls) too short to
    wrap the 64-bit clock, the history of every frame holds at most [k]
    timestamps. *)
Theorem history_length_le_k (num_frames k : Z) (cs : list call) (f : Z) :
  1 ≤ k → Z.of_nat (length cs) + 1 < size_t_modulus →
  ∃ s, run cs (new_LRUKReplacer num_frames k) = Some s ∧
       Z.of_nat (length (history_of s f)) ≤ k.
Proof.
  intros Hk Hlen.
  destruct (run_reachable num_frames k cs Hk Hlen) as (s & Hrun & Hs).
  exists s. split; [done|]. apply reachable_wf in Hs.
  rewrite (wf_hist s Hs). apply run_parameters in Hrun as [Hks _].
  simpl in Hks. lia.
Qed.

Lemma history_length_le_k_witness :
  ∃ s, run scenario (new_LRUKReplacer 7 2) = Some s ∧
       Z.of_nat (length (history_of s 1)) ≤ 2.
Proof.
  apply (history_length_le_k 7 2 scenario 1); [lia|]. vm_compute. reflexivity.
Defined.

(** Frame 1 of the scenario was accessed three times; with [k = 2] its
    history holds the last two timestamps. *)
Example history_scenario : history_of scenario_state 1 = [7; 8].
Proof. reflexivity. Qed.

(** C6 -- [Remove] on a tracked frame whose evictable flag is false throws
    and leaves the whole state (histories, counts, both lists, flags and
    size) exactly as it was. *)
Theorem Remove_pinned_throws (s : LRUKReplacer) (f : Z) :
  reachable s → f ∈ tracked s → is_evictable s f = false →
  Remove f s = Throw s.
Proof.
  intros Hwf%reachable_wf Hf Hev.
  destruct (Remove_cases s f Hwf) as
    [[_ Hcall]|[(_ & Hnone & _)|(_ & Hev' & _)]]; [done| |congruence].
  apply (wf_tracked_flag s f Hwf) in Hf as [b Hb]. congruence.
Qed.

Lemma Remove_pinned_throws_witness :
  Remove 1 (state_of 7 2 [CallRecordAccess 1; CallSetEvictable 1 false]) =
  Throw (state_of 7 2 [CallRecordAccess 1; CallSetEvictable 1 false]).
Proof.
  apply (Remove_pinned_throws
           (state_of 7 2 [CallRecordAccess 1; CallSetEvictable 1 false]) 1).
  - reach 7 2 [CallRecordAccess 1; CallSetEvictable 1 false].
  - vm_compute. by left.
  - reflexivity.
Defined.

Lemma filter_key_middle (f t : Z) (a b : list k_time) :
  f ∉ (a ++ b).*1 →
  filter (λ p : k_time, p.1 ≠ f) (a ++ (f, t) :: b) = a ++ b.
Proof.
  intros Hf. rewrite filter_app, filter_cons_False by (intros Hp; by apply Hp).
  rewrite <- filter_app. apply filter_all, Forall_forall.
  intros p Hp <-. by apply Hf, list_elem_of_fmap_2.
Qed.

Lemma filter_key_absent (f : Z) (l : list k_time) :
  f ∉ l.*1 → filter (λ p : k_time, p.1 ≠ f) l = l.
Proof.
  intros Hf. apply filter_all, Forall_forall.
  intros p Hp <-. by apply Hf, list_elem_of_fmap_2.
Qed.

Lemma list_remove_absent (f : Z) (l : list Z) : f ∉ l → list_remove f l = l.
Proof. intros Hf. apply filter_all, Forall_forall. by intros g Hg ->. Qed.

(** How retiring a frame changes the two lists and leaves the rest. *)
Lemma retire_early_frame s f l1 l2 :
  wf s → new_frame_ s = l1 ++ f :: l2 →
  new_frame_ (retire_early f (l1 ++ l2) s) = list_remove f (new_frame_ s) ∧
  cache_frame_ (retire_early f (l1 ++ l2) s) =
    filter (λ p : k_time, p.1 ≠ f) (cache_frame_ s).
Proof.
  intros Hwf Hnf. pose proof (wf_nodup s Hwf) as Hnd. unfold tracked in Hnd.
  rewrite Hnf in Hnd. apply NoDup_app in Hnd as (Hnd & Hdisj & _).
  apply NoDup_app in Hnd as (_ & Hl1 & [Hl2 _]%NoDup_cons). simpl. split.
  - rewrite Hnf, list_remove_middle; [done| |done].
    intros Hf. apply (Hl1 f Hf). by left.
  - rewrite filter_key_absent; [done|]. apply Hdisj, elem_of_middle. by left.
Qed.

Lemma retire_stable_frame s f t l1 l2 :
  wf s → cache_frame_ s = l1 ++ (f, t) :: l2 →
  new_frame_ (retire_stable f (l1 ++ l2) s) = list_remove f (new_frame_ s) ∧
  cache_frame_ (retire_stable f (l1 ++ l2) s) =
    filter (λ p : k_time, p.1 ≠ f) (cache_frame_ s).
Proof.
  intros Hwf Hcf. pose proof (wf_nodup s Hwf) as Hnd. unfold tracked in Hnd.
  apply NoDup_app in Hnd as (_ & Hdisj & Hnd).
  destruct (ranked_unlink _ l1 l2 f t Hcf Hnd) as (Hout & _). simpl. split.
  - rewrite list_remove_absent; [done|]. intros Hf. apply (Hdisj f Hf).
    rewrite Hcf, fmap_app, fmap_cons. apply elem_of_middle. by left.
  - by rewrite Hcf, filter_key_middle.
Qed.

Lemma retire_other s f g :
  g ≠ f →
  count_of (retire f s) g = count_of s g ∧
  history_of (retire f s) g = history_of s g ∧
  is_evictable (retire f s) g = is_evictable s g.
Proof. intros Hne. observe. by rewrite !at_default_insert_ne. Qed.

(** C9 -- when [Evict] returns [f], or [Remove(f)] returns normally, every
    other frame keeps its access count, its history and its evictable
    flag, and the Early Set and the Stable Set are what they were with
    [f] taken out: the remaining frames keep their relative order. *)
Theorem retire_leaves_other_frames (s s' : LRUKReplacer) (f : Z) :
  reachable s →
  Evict s = Return (Some f) s' ∨ Remove f s = Return tt s' →
  (∀ g, g ≠ f →
     count_of s' g = count_of s g ∧
     history_of s' g = history_of s g ∧
     is_evictable s' g = is_evictable s g) ∧
  new_frame_ s' = filter (λ g, g ≠ f) (new_frame_ s) ∧
  cache_frame_ s' = filter (λ p : k_time, p.1 ≠ f) (cache_frame_ s).
Proof.
  intros Hwf%reachable_wf Hcall.
  assert (s' = s ∧ count_of s f = 0 ∨
          (∃ l1 l2, new_frame_ s = l1 ++ f :: l2 ∧
                    s' = retire_early f (l1 ++ l2) s) ∨
          (∃ t l1 l2, cache_frame_ s = l1 ++ (f, t) :: l2 ∧
                      s' = retire_stable f (l1 ++ l2) s)) as Hs'.
  { destruct Hcall as [Hcall|Hcall].
    - destruct (Evict_cases s Hwf) as
        [[_ He]|[(f' & l1 & l2 & Hnf & _ & _ & He)
                |(f' & t & l1 & l2 & _ & Hcf & _ & _ & He)]];
        rewrite He in Hcall; [done|..]; injection Hcall as -> <-.
      + right. left. by exists l1, l2.
      + right. right. by exists t, l1, l2.
    - destruct (Remove_cases s f Hwf) as
        [[_ He]|[(_ & _ & He)|(_ & _ &
          [[Hz He]|[(l1 & l2 & _ & Hnf & He)|(t & l1 & l2 & _ & Hcf & He)]])]];
        rewrite He in Hcall; try done; injection Hcall as <-.
      + by left.
      + right. left. by exists l1, l2.
      + right. right. by exists t, l1, l2. }
  destruct Hs' as [[-> Hz]|[(l1 & l2 & Hnf & ->)|(t & l1 & l2 & Hcf & ->)]].
  - assert (f ∉ tracked s) as Hout by (rewrite wf_tracked_iff by done; lia).
    split; [done|]. split.
    + symmetry. apply list_remove_absent.
      intros ?. apply Hout, elem_of_app. by left.
    + symmetry. apply filter_key_absent.
      intros ?. apply Hout, elem_of_app. by right.
  - split; [intros g Hg; by apply (retire_other s f g)|].
    by apply retire_early_frame.
  - split; [intros g Hg; by apply (retire_other s f g)|].
    by eapply retire_stable_frame.
Qed.

Lemma retire_leaves_other_frames_witness :
  (∀ g, g ≠ 2 →
     count_of (state_of 7 2 (scenario ++ [CallEvict])) g =
       count_of scenario_state g ∧
     history_of (state_of 7 2 (scenario ++ [CallEvict])) g =
       history_of scenario_state g ∧
     is_evictable (state_of 7 2 (scenario ++ [CallEvict])) g =
       is_evictable scenario_state g) ∧
  new_frame_ (state_of 7 2 (scenario ++ [CallEvict])) =
    filter (λ g, g ≠ 2) (new_frame_ scenario_state) ∧
  cache_frame_ (state_of 7 2 (scenario ++ [CallEvict])) =
    filter (λ p : k_time, p.1 ≠ 2) (cache_frame_ scenario_state).
Proof.
  apply (retire_leaves_other_frames scenario_state
           (state_of 7 2 (scenario ++ [CallEvict])) 2).
  - reach 7 2 scenario.
  - left. vm_compute. reflexivity.
Defined.

(** ** Reusing a frame id *)

(** Lines 59-68 on a frame whose count is zero. *)
Lemma RecordAccess_begin_untracked s f :
  wf s → current_timestamp_ s + 1 < size_t_modulus → count_of s f = 0 →
  RecordAccess_begin f s =
  enter_early f (accessed f [current_timestamp_ s + 1] s).
Proof.
  intros Hwf Hclock Hc.
  destruct (counters_do_not_wrap s f Hwf Hclock) as (Hts & Hcnt & Hsz).
  unfold RecordAccess_begin. fields. rewrite Hcnt, Hts, !at_default_insert_eq.
  fold (history_of s f). rewrite (history_of_untracked s f Hwf Hc), Hc.
  change (0 + 1 =? 1) with true. fields. rewrite Hsz.
  unfold enter_early, accessed. fields. by rewrite Hc.
Qed.

(** A frame with a zero count and an empty history is treated like a frame
    without entries. *)
Lemma RecordAccess_begin_forget s f :
  count_of s f = 0 → history_of s f = [] →
  RecordAccess_begin f (forget f s) = RecordAccess_begin f s.
Proof.
  unfold count_of, history_of. intros Hc Hh.
  unfold RecordAccess_begin, forget. fields.
  assert (at_default 0 (delete f (recorded_cnt_ s)) f = 0) as ->.
  { unfold at_default. by rewrite lookup_delete_eq. }
  assert (at_default [] (delete f (hist s)) f = []) as ->.
  { unfold at_default. by rewrite lookup_delete_eq. }
  rewrite Hc, Hh, !at_default_insert_eq, !insert_delete_eq.
  change (wrap_size_t (0 + 1) =? 1) with true. fields.
  rewrite ?insert_delete_eq. reflexivity.
Qed.

Lemma RecordAccess_forget s f :
  f ≤ static_cast_frame_id_t (replacer_size_ s) →
  count_of s f = 0 → history_of s f = [] →
  RecordAccess f (forget f s) = RecordAccess f s.
Proof.
  intros Hf Hc Hh. unfold RecordAccess.
  rewrite (RecordAccess_begin_forget s f Hc Hh).
  change (replacer_size_ (forget f s)) with (replacer_size_ s).
  by rewrite (proj2 (Z.ltb_ge _ _) Hf).
Qed.

(** What is known of a frame that [Evict] or [Remove] has just retired. *)
Lemma retired_frame s s1 f :
  wf s →
  Evict s = Return (Some f) s1 ∨ Remove f s = Return tt s1 →
  wf s1 ∧ count_of s1 f = 0 ∧ is_evictable s1 f = true ∧
  k_ s1 = k_ s ∧ current_timestamp_ s1 = current_timestamp_ s.
Proof.
  intros Hwf Hcall.
  assert (wf s1) as Hwf1.
  { destruct Hcall as [Hcall|Hcall].
    - apply (Evict_wf s); [done|]. by rewrite Hcall.
    - apply (Remove_wf s f); [done|]. by rewrite Hcall. }
  split; [done|]. destruct Hcall as [Hcall|Hcall].
  - destruct (Evict_cases s Hwf) as
      [[_ He]|[(f' & l1 & l2 & _ & Hev & _ & He)
              |(f' & t & l1 & l2 & _ & _ & Hev & _ & He)]];
      rewrite He in Hcall; [done|..]; injection Hcall as -> <-;
      observe; by rewrite at_default_insert_eq.
  - destruct (Remove_cases s f Hwf) as
      [[_ He]|[(_ & _ & He)|(_ & Hev &
        [[Hz He]|[(l1 & l2 & _ & _ & He)|(t & l1 & l2 & _ & _ & He)]])]];
      rewrite He in Hcall; try done; injection Hcall as <-; [done|..];
      observe; by rewrite at_default_insert_eq.
Qed.

(** C7, as amended -- once [Evict] has returned [f], or [Remove(f)] has
    returned normally, the next [RecordAccess(f)] does what it does for a
    frame the replacer has no entry for: it returns normally with the
    count at 1, a history of the one new timestamp and the evictable flag
    set.  Its first-access block (lines 59-68) links [f] in at the front,
    the most recent end, of the Early Set.  With [k >= 2] the call returns
    there: the Early Set it leaves is [f] in front of the former one.
    With [k = 1] the same call moves the frame on (lines 70-79): it
    returns with the Early Set as it was and [f] in the Stable Set, stored
    with the new timestamp. *)
Theorem RecordAccess_after_retire_is_fresh (s s1 : LRUKReplacer) (f : Z) :
  reachable s →
  Evict s = Return (Some f) s1 ∨ Remove f s = Return tt s1 →
  RecordAccess f s1 = RecordAccess f (forget f s1) ∧
  count_of (RecordAccess_begin f s1) f = 1 ∧
  history_of (RecordAccess_begin f s1) f =
    [current_timestamp_ (RecordAccess_begin f s1)] ∧
  is_evictable (RecordAccess_begin f s1) f = true ∧
  new_frame_ (RecordAccess_begin f s1) = f :: new_frame_ s1 ∧
  ∃ s2, RecordAccess f s1 = Return tt s2 ∧
        count_of s2 f = 1 ∧
        history_of s2 f = [current_timestamp_ s2] ∧
        is_evictable s2 f = true ∧
        (1 < k_ s →
         s2 = RecordAccess_begin f s1 ∧
         new_frame_ s2 = f :: new_frame_ s1 ∧
         cache_frame_ s2 = cache_frame_ s1) ∧
        (k_ s = 1 →
         new_frame_ s2 = new_frame_ s1 ∧
         (f, current_timestamp_ s2) ∈ cache_frame_ s2).
Proof.
  intros Hreach Hcall. pose proof (reachable_wf s Hreach) as Hwf.
  pose proof (reachable_clock s Hreach) as Hclock.
  destruct (retired_frame s s1 f Hwf Hcall) as (Hwf1 & Hc & Hev & Hk & Hts).
  rewrite <- Hk, <- Hts in *.
  assert (f ≤ static_cast_frame_id_t (replacer_size_ s1)) as Hf.
  { apply (wf_range s1 Hwf1). unfold is_evictable, at_default in Hev.
    by destruct (evictable_ s1 !! f). }
  pose proof (history_of_untracked s1 f Hwf1 Hc) as Hh.
  rewrite (RecordAccess_forget s1 f Hf Hc Hh).
  rewrite (RecordAccess_begin_untracked s1 f Hwf1 Hclock Hc).
  split; [done|].
  assert (count_of (enter_early f (accessed f [current_timestamp_ s1 + 1] s1))
            f = 1) as Hc'.
  { observe. rewrite at_default_insert_eq. lia. }
  assert (history_of
            (enter_early f (accessed f [current_timestamp_ s1 + 1] s1)) f
          = [current_timestamp_ s1 + 1]) as Hh'.
  { observe. by rewrite at_default_insert_eq. }
  assert (is_evictable
            (enter_early f (accessed f [current_timestamp_ s1 + 1] s1)) f
          = true) as Hev'.
  { observe. by rewrite at_default_insert_eq. }
  split_and!; [done..|].
  pose proof (wf_k s1 Hwf1) as Hk1.
  destruct (Z.eq_dec (k_ s1) 1) as [Hone|Hmore].
  - destruct (RecordAccess_first_stable s1 f Hwf1 Hf Hclock Hc Hone)
      as (c1 & c2 & Hcf & Hle & Hgt & ->).
    eexists. split; [done|]. split_and!; [done..|lia|].
    intros _. split; [done|]. simpl. apply elem_of_app. right. by left.
  - rewrite (RecordAccess_first_early s1 f Hwf1 Hf Hclock Hc) by lia.
    eexists. split; [done|]. split_and!; [done..|lia].
Qed.

Lemma RecordAccess_after_retire_is_fresh_witness :
  RecordAccess 2 (state_of 7 2 (scenario ++ [CallEvict])) =
    RecordAccess 2 (forget 2 (state_of 7 2 (scenario ++ [CallEvict]))) ∧
  count_of (RecordAccess_begin 2 (state_of 7 2 (scenario ++ [CallEvict]))) 2
    = 1 ∧
  history_of (RecordAccess_begin 2 (state_of 7 2 (scenario ++ [CallEvict]))) 2 =
    [current_timestamp_
       (RecordAccess_begin 2 (state_of 7 2 (scenario ++ [CallEvict])))] ∧
  is_evictable (RecordAccess_begin 2 (state_of 7 2 (scenario ++ [CallEvict]))) 2
    = true ∧
  new_frame_ (RecordAccess_begin 2 (state_of 7 2 (scenario ++ [CallEvict]))) =
    2 :: new_frame_ (state_of 7 2 (scenario ++ [CallEvict])) ∧
  ∃ s2, RecordAccess 2 (state_of 7 2 (scenario ++ [CallEvict])) = Return tt s2 ∧
        count_of s2 2 = 1 ∧
        history_of s2 2 = [current_timestamp_ s2] ∧
        is_evictable s2 2 = true ∧
        (1 < k_ scenario_state →
         s2 = RecordAccess_begin 2 (state_of 7 2 (scenario ++ [CallEvict])) ∧
         new_frame_ s2 =
           2 :: new_frame_ (state_of 7 2 (scenario ++ [CallEvict])) ∧
         cache_frame_ s2 =
           cache_frame_ (state_of 7 2 (scenario ++ [CallEvict]))) ∧
        (k_ scenario_state = 1 →
         new_frame_ s2 = new_frame_ (state_of 7 2 (scenario ++ [CallEvict])) ∧
         (2, current_timestamp_ s2) ∈ cache_frame_ s2).
Proof.
  apply (RecordAccess_after_retire_is_fresh scenario_state
           (state_of 7 2 (scenario ++ [CallEvict])) 2).
  - reach 7 2 scenario.
  - left. vm_compute. reflexivity.
Defined.

(** C7, as it was stated, fails for [k = 1]: on a replacer of seven
    frames with [k = 1], frames 1 and 2 are accessed and [Evict] returns
    frame 1; the next [RecordAccess(1)] returns with count 1, a fresh
    history and the flag set, but frame 1 is not in the Early Set, which
    is empty: the frame is the last member of the Stable Set. *)
Theorem reuse_with_k_1 :
  ∃ s1 s2,
    Evict (state_of 7 1 [CallRecordAccess 1; CallRecordAccess 2])
      = Return (Some 1) s1 ∧
    RecordAccess 1 s1 = Return tt s2 ∧
    count_of s2 1 = 1 ∧ history_of s2 1 = [3] ∧ is_evictable s2 1 = true ∧
    (1 ∉ new_frame_ s2) ∧
    new_frame_ s2 = [] ∧ cache_frame_ s2 = [(2, 2); (1, 3)].
Proof.
  eexists _, _. split; [vm_compute; reflexivity|].
  split; [vm_compute; reflexivity|].
  split_and!; [reflexivity..| |reflexivity|reflexivity].
  apply not_elem_of_nil.
Qed.

(** ** The order of the Stable Set *)

(** C8 -- in every reachable state the Stable Set is sorted by ascending
    timestamp, and the timestamp stored with a member is the oldest of the
    [k] timestamps its history retains, that is its current Kth-back
    timestamp.  An access that brings a frame to its Kth access, or any
    later access, returns with the frame linked into the other members
    (which keep their order) at the rank of the oldest timestamp its
    history now retains: behind every member whose timestamp is smaller or
    equal, in front of every member whose timestamp is greater, so that
    among equal timestamps the member inserted first comes first. *)
Theorem Stable_Set_sorted_by_kth_timestamp (s : LRUKReplacer) :
  reachable s →
  (StronglySorted ts_le (cache_frame_ s) ∧
   ∀ f t, (f, t) ∈ cache_frame_ s →
          head (history_of s f) = Some t ∧
          Z.of_nat (length (history_of s f)) = k_ s) ∧
  ∀ f,
    f ≤ static_cast_frame_id_t (replacer_size_ s) →
    k_ s ≤ count_of s f + 1 →
    ∃ t before after s',
      RecordAccess f s = Return tt s' ∧
      head (history_of s' f) = Some t ∧
      cache_frame_ s' = before ++ (f, t) :: after ∧
      before ++ after = filter (λ p : k_time, p.1 ≠ f) (cache_frame_ s) ∧
      Forall (λ p, p.2 ≤ t) before ∧
      Forall (λ p, t < p.2) after ∧
      StronglySorted ts_le (cache_frame_ s').
Proof.
  intros Hreach. pose proof (reachable_wf s Hreach) as Hwf.
  pose proof (reachable_clock s Hreach) as Hclock.
  pose proof (wf_k s Hwf) as Hk1. split.
  { split; [by apply wf_sorted|]. intros f t Hin.
    split; [by apply (wf_kth s Hwf)|]. rewrite (wf_hist s Hwf).
    assert (k_ s ≤ count_of s f); [|lia].
    apply (wf_stable s Hwf). by apply (list_elem_of_fmap_2 fst) in Hin. }
  intros f Hf Hk. pose proof (wf_count s Hwf f) as Hcnt.
  assert (∀ s', state_after (RecordAccess f s) = Some s' →
                StronglySorted ts_le (cache_frame_ s')) as Hsorted.
  { intros s' Hs'.
    destruct (RecordAccess_wf s f Hwf Hclock) as (o & Ho & Hwfo & _).
    rewrite Hs' in Ho. injection Ho as ->. by apply wf_sorted. }
  destruct (Z.eq_dec (count_of s f) 0) as [Hzero|Hpos];
    [|destruct (Z.eq_dec (count_of s f + 1) (k_ s)) as [Heq|Hne]].
  - destruct (RecordAccess_first_stable s f Hwf Hf Hclock Hzero ltac:(lia))
      as (c1 & c2 & Hcf & Hle & Hgt & Hcall).
    rewrite Hcall in *. eexists _, c1, c2, _. split; [done|].
    split_and!; [|done| |done|done|by apply Hsorted].
    + observe. by rewrite at_default_insert_eq.
    + rewrite <- Hcf. symmetry. apply filter_key_absent.
      rewrite (wf_stable s Hwf). lia.
  - destruct (RecordAccess_promote s f Hwf Hf Hclock ltac:(lia) Heq)
      as (t & l1 & l2 & c1 & c2 & Hnf & Hh & Hcf & Hle & Hgt & Hcall).
    rewrite Hcall in *. eexists t, c1, c2, _. split; [done|].
    split_and!; [|done| |done|done|by apply Hsorted].
    + observe. rewrite at_default_insert_eq.
      destruct (at_default [] (hist s) f); [done|]. by simplify_eq/=.
    + rewrite <- Hcf. symmetry. apply filter_key_absent.
      rewrite (wf_stable s Hwf). lia.
  - destruct (RecordAccess_rerank s f Hwf Hf Hclock ltac:(lia))
      as (t & t' & h & a & b & c1 & c2
          & Hh & Hhead & Hcf & Hab & Hle & Hgt & Hcall).
    rewrite Hcall in *. eexists t', c1, c2, _. split; [done|].
    split_and!; [|done| |done|done|by apply Hsorted].
    + observe. by rewrite at_default_insert_eq.
    + rewrite <- Hab, Hcf. symmetry. apply filter_key_middle.
      pose proof (wf_nodup s Hwf) as Hnd.
      apply NoDup_app in Hnd as (_ & _ & Hnd).
      by destruct (ranked_unlink _ a b f t Hcf Hnd) as (Hout & _).
Qed.

Lemma Stable_Set_sorted_by_kth_timestamp_witness :
  (StronglySorted ts_le (cache_frame_ scenario_state) ∧
   ∀ f t, (f, t) ∈ cache_frame_ scenario_state →
          head (history_of scenario_state f) = Some t ∧
          Z.of_nat (length (history_of scenario_state f)) = k_ scenario_state) ∧
  ∀ f,
    f ≤ static_cast_frame_id_t (replacer_size_ scenario_state) →
    k_ scenario_state ≤ count_of scenario_state f + 1 →
    ∃ t before after s',
      RecordAccess f scenario_state = Return tt s' ∧
      head (history_of s' f) = Some t ∧
      cache_frame_ s' = before ++ (f, t) :: after ∧
      before ++ after =
        filter (λ p : k_time, p.1 ≠ f) (cache_frame_ scenario_state) ∧
      Forall (λ p, p.2 ≤ t) before ∧
      Forall (λ p, t < p.2) after ∧
      StronglySorted ts_le (cache_frame_ s').
Proof.
  apply (Stable_Set_sorted_by_kth_timestamp scenario_state).
  reach 7 2 scenario.
Defined.

(** Promoting frame 2 of the scenario ranks it by its first access, in
    front of frame 1, whose two retained accesses are later. *)
Example promote_scenario :
  ∃ s', RecordAccess 2 scenario_state = Return tt s' ∧
        cache_frame_ s' = [(2, 2); (1, 7)] ∧ new_frame_ s' = [6; 5; 4; 3].
Proof. eexists. split; [vm_compute; reflexivity|]. split; reflexivity. Qed.

(** [std::upper_bound] puts a node behind the nodes with an equal
    timestamp. *)
Example upper_bound_ties :
  list_insert_before (upper_bound CmpTimestamp (9, 5) [(1, 3); (2, 5); (3, 7)])
    (9, 5) [(1, 3); (2, 5); (3, 7)] = [(1, 3); (2, 5); (9, 5); (3, 7)].
Proof. reflexivity. Qed.

(** ** The range check *)

(** A frame id above the capacity makes all three calls throw before they
    touch anything. *)
Lemma above_capacity_throws s f b :
  static_cast_frame_id_t (replacer_size_ s) < f →
  RecordAccess f s = Throw s ∧ SetEvictable f b s = Throw s ∧
  Remove f s = Throw s.
Proof.
  intros Hf%Z.ltb_lt. unfold RecordAccess, SetEvictable, Remove.
  by rewrite Hf.
Qed.

(** C4 -- the check is [frame_id > replacer_size_]: with a capacity of 7,
    frame id 7 and frame id -1 are accepted.  [RecordAccess] tracks them,
    and [SetEvictable] and [Remove] then work on them. *)
Theorem frame_id_outside_range_accepted :
  (∃ s', RecordAccess 7 (new_LRUKReplacer 7 2) = Return tt s' ∧
         new_frame_ s' = [7] ∧ count_of s' 7 = 1 ∧ Size s' = 1) ∧
  (∃ s', RecordAccess (-1) (new_LRUKReplacer 7 2) = Return tt s' ∧
         new_frame_ s' = [-1] ∧ count_of s' (-1) = 1 ∧ Size s' = 1) ∧
  (∃ s', SetEvictable 7 false (state_of 7 2 [CallRecordAccess 7])
           = Return tt s' ∧
         is_evictable s' 7 = false ∧ Size s' = 0) ∧
  (∃ s', Remove (-1) (state_of 7 2 [CallRecordAccess (-1)]) = Return tt s' ∧
         new_frame_ s' = [] ∧ Size s' = 0).
Proof.
  split_and!; eexists; (split; [vm_compute; reflexivity|]); by vm_compute.
Qed.

(** ** [Remove] on a frame that is not tracked *)

(** In a reachable state, [Remove] on an in-range frame with a zero count
    returns without a change exactly when the frame's flag is still set,
    which is the case for a frame that was tracked once and has been
    retired; for a frame that was never accessed the flag reads false and
    [Remove] throws. *)
Lemma Remove_untracked s f :
  reachable s → f ≤ static_cast_frame_id_t (replacer_size_ s) →
  count_of s f = 0 →
  (is_evictable s f = true ∧ Remove f s = Return tt s) ∨
  (is_evictable s f = false ∧ ∃ s', Remove f s = Throw s').
Proof.
  intros Hwf%reachable_wf Hf Hc.
  destruct (Remove_cases s f Hwf) as
    [[[?|[_ Hev]] He]|[(_ & Hnone & He)|(_ & Hev &
      [[_ He]|[(l1 & l2 & ? & _)|(t & l1 & l2 & ? & _)]])]].
  - lia.
  - right. split; [done|]. by exists s.
  - right. split; [|by eexists]. unfold is_evictable, at_default.
    by rewrite Hnone.
  - by left.
  - lia.
  - pose proof (wf_k s Hwf). lia.
Qed.

(** C5 -- [Remove] on frame 1 of a fresh replacer: the test
    [!evictable_[frame_id]] creates the entry, reads false and throws, so
    the [count == 0] return of lines 118-120 is not reached. *)
Theorem Remove_never_accessed_throws :
  Remove 1 (new_LRUKReplacer 7 2) =
  Throw (set_evictable_ {[1 := false]} (new_LRUKReplacer 7 2)).
Proof. vm_compute. reflexivity. Qed.

(** ** Scenarios *)

(** All six frames have reached two accesses: the frames leave in the
    order of their second-to-last access. *)
Example evict_all_stable :
  evictions
    [CallRecordAccess 1; CallRecordAccess 2; CallRecordAccess 3;
     CallRecordAccess 4; CallRecordAccess 5; CallRecordAccess 6;
     CallRecordAccess 6; CallRecordAccess 5; CallRecordAccess 4;
     CallRecordAccess 3; CallRecordAccess 2; CallRecordAccess 1;
     CallRecordAccess 1; CallEvict; CallEvict; CallEvict]
    (new_LRUKReplacer 7 2)
  = [(Some 2, 5); (Some 3, 4); (Some 4, 3)].
Proof. vm_compute. reflexivity. Qed.

(** The Stable frame that would go next is pinned: it is skipped. *)
Example evict_skips_pinned :
  evictions
    [CallRecordAccess 1; CallRecordAccess 2; CallRecordAccess 3;
     CallRecordAccess 1; CallRecordAccess 2; CallRecordAccess 3;
     CallSetEvictable 1 false; CallEvict; CallEvict; CallEvict]
    (new_LRUKReplacer 7 2)
  = [(Some 2, 1); (Some 3, 0); (None, 0)].
Proof. vm_compute. reflexivity. Qed.

(** A longer mixed sequence of accesses, pins and evictions. *)
Example evict_mixed_sequence :
  evictions
    [CallRecordAccess 1; CallRecordAccess 2; CallRecordAccess 3;
     CallRecordAccess 4; CallRecordAccess 5; CallRecordAccess 6;
     CallSetEvictable 1 true; CallSetEvictable 2 true; CallSetEvictable 3 true;
     CallSetEvictable 4 true; CallSetEvictable 5 true;
     CallSetEvictable 6 false;
     CallRecordAccess 1; CallEvict; CallEvict; CallEvict;
     CallRecordAccess 3; CallRecordAccess 4; CallRecordAccess 5;
     CallRecordAccess 4; CallSetEvictable 3 true; CallSetEvictable 4 true;
     CallEvict; CallSetEvictable 6 true; CallEvict;
     CallSetEvictable 1 false; CallEvict;
     CallRecordAccess 1; CallRecordAccess 1; CallSetEvictable 1 true;
     CallEvict; CallEvict; CallEvict]
    (new_LRUKReplacer 7 2)
  = [(Some 2, 4); (Some 3, 3); (Some 4, 2); (Some 3, 3); (Some 6, 3);
     (Some 5, 1); (Some 4, 1); (Some 1, 0); (None, 0)].
Proof. vm_compute. reflexivity. Qed.

(** * Further properties *)

(** ** What one [RecordAccess] changes *)

(** The tables after an in-range [RecordAccess] on a well-formed state. *)
Lemma RecordAccess_summary s f :
  wf s → current_timestamp_ s + 1 < size_t_modulus →
  f ≤ static_cast_frame_id_t (replacer_size_ s) →
  ∃ s',
    RecordAccess f s = Return tt s' ∧ wf s' ∧
    current_timestamp_ s' = current_timestamp_ s + 1 ∧
    recorded_cnt_ s' = <[f := count_of s f + 1]> (recorded_cnt_ s) ∧
    hist s' =
      <[f := drop (if bool_decide (k_ s ≤ count_of s f) then 1 else 0)
               (history_of s f ++ [current_timestamp_ s + 1])]> (hist s) ∧
    evictable_ s' =
      (if bool_decide (count_of s f = 0)
       then <[f := true]> (evictable_ s) else evictable_ s) ∧
    curr_size_ s' =
      (if bool_decide (count_of s f = 0)
       then curr_size_ s + 1 else curr_size_ s).
Proof.
  intros Hwf Hclock Hf.
  pose proof (wf_count s Hwf f) as Hcnt. pose proof (wf_k s Hwf) as Hk.
  destruct (Z.eq_dec (count_of s f) 0) as [Hzero|Hpos].
  - rewrite (bool_decide_eq_true_2 (count_of s f = 0)) by done.
    rewrite (bool_decide_eq_false_2 (k_ s ≤ count_of s f)) by lia.
    rewrite (history_of_untracked s f Hwf Hzero). simpl drop.
    destruct (Z.eq_dec (k_ s) 1) as [Hone|Hmore].
    + destruct (RecordAccess_first_stable s f Hwf Hf Hclock Hzero Hone)
        as (c1 & c2 & Hcf & Hle & Hgt & ->).
      eexists. split; [done|]. split; [by apply wf_first_stable|done].
    + rewrite (RecordAccess_first_early s f Hwf Hf Hclock Hzero) by lia.
      eexists. split; [done|].
      split; [apply wf_first_early; [done..|lia]|done].
  - rewrite (bool_decide_eq_false_2 (count_of s f = 0)) by done.
    destruct (Z.lt_trichotomy (count_of s f + 1) (k_ s)) as [Hlt|[Heq|Hgt]].
    + rewrite (bool_decide_eq_false_2 (k_ s ≤ count_of s f)) by lia.
      rewrite (RecordAccess_early s f Hwf Hf Hclock) by lia.
      eexists. split; [done|].
      split; [apply wf_accessed_early; [done..|lia|lia]|done].
    + rewrite (bool_decide_eq_false_2 (k_ s ≤ count_of s f)) by lia.
      destruct (RecordAccess_promote s f Hwf Hf Hclock ltac:(lia) Heq)
        as (t & l1 & l2 & c1 & c2 & Hnf & Hh & Hcf & Hle & Hgt & ->).
      eexists. split; [done|].
      split; [apply wf_promote; (done || lia)|done].
    + rewrite (bool_decide_eq_true_2 (k_ s ≤ count_of s f)) by lia.
      destruct (RecordAccess_rerank s f Hwf Hf Hclock ltac:(lia))
        as (t & t' & h & a & b & c1 & c2
            & Hh & Hhead & Hcf & Hab & Hle & Hgt' & ->).
      eexists. split; [done|].
      split; [eapply wf_rerank; (done || lia)|].
      rewrite Hh. done.
Qed.

(** X1 -- in a reachable state, [RecordAccess] with a frame id that passes
    the guard of line 55, that is an id not above
    [static_cast<frame_id_t>(replacer_size_)], returns normally, advances
    the clock by one and counts the access; the frame's history gains the
    new clock value and, once the frame already had [k] accesses, loses
    its oldest entry; the counts and histories of all other frames stay as
    they are. *)
Theorem RecordAccess_slides_history (s : LRUKReplacer) (f : Z) :
  reachable s → f ≤ static_cast_frame_id_t (replacer_size_ s) →
  ∃ s',
    RecordAccess f s = Return tt s' ∧
    current_timestamp_ s' = current_timestamp_ s + 1 ∧
    count_of s' f = count_of s f + 1 ∧
    history_of s' f =
      drop (if bool_decide (k_ s ≤ count_of s f) then 1 else 0)
        (history_of s f ++ [current_timestamp_ s + 1]) ∧
    ∀ g, g ≠ f →
      count_of s' g = count_of s g ∧ history_of s' g = history_of s g.
Proof.
  intros Hreach Hf.
  destruct (RecordAccess_summary s f (reachable_wf s Hreach)
              (reachable_clock s Hreach) Hf)
    as (s' & Hcall & _ & Hts & Hcnt & Hhist & _).
  exists s'. unfold count_of, history_of in *. rewrite Hcnt, Hhist.
  split_and!; [done|done|by rewrite at_default_insert_eq
              |by rewrite at_default_insert_eq|].
  intros g Hg. by rewrite !at_default_insert_ne.
Qed.

Lemma RecordAccess_slides_history_witness :
  ∃ s',
    RecordAccess 1 scenario_state = Return tt s' ∧
    current_timestamp_ s' = current_timestamp_ scenario_state + 1 ∧
    count_of s' 1 = count_of scenario_state 1 + 1 ∧
    history_of s' 1 =
      drop (if bool_decide (k_ scenario_state ≤ count_of scenario_state 1)
            then 1 else 0)
        (history_of scenario_state 1 ++
         [current_timestamp_ scenario_state + 1]) ∧
    ∀ g, g ≠ 1 →
      count_of s' g = count_of scenario_state g ∧
      history_of s' g = history_of scenario_state g.
Proof.
  apply (RecordAccess_slides_history scenario_state 1).
  - reach 7 2 scenario.
  - vm_compute. by intros [=].
Defined.

(** X2 -- in a reachable state, [RecordAccess] with a frame id that passes
    the guard of line 55, that is an id not above
    [static_cast<frame_id_t>(replacer_size_)], never pins or unpins a
    frame that is tracked: the flags of all other frames stay, the flag of
    the accessed frame and [Size()] change only on the frame's first
    access, which sets the flag and adds one to the size. *)
Theorem RecordAccess_keeps_flags (s : LRUKReplacer) (f : Z) :
  reachable s → f ≤ static_cast_frame_id_t (replacer_size_ s) →
  ∃ s',
    RecordAccess f s = Return tt s' ∧
    (∀ g, g ≠ f → is_evictable s' g = is_evictable s g) ∧
    (count_of s f = 0 → is_evictable s' f = true ∧ Size s' = Size s + 1) ∧
    (1 ≤ count_of s f →
     is_evictable s' f = is_evictable s f ∧ Size s' = Size s).
Proof.
  intros Hreach Hf.
  destruct (RecordAccess_summary s f (reachable_wf s Hreach)
              (reachable_clock s Hreach) Hf)
    as (s' & Hcall & _ & _ & _ & _ & Hev & Hsz).
  exists s'. unfold is_evictable, Size. rewrite Hev, Hsz.
  split; [done|]. split_and!.
  - intros g Hg. case_bool_decide; [|done]. by rewrite at_default_insert_ne.
  - intros Hz. rewrite !bool_decide_eq_true_2 by done.
    by rewrite at_default_insert_eq.
  - intros Hpos. by rewrite !bool_decide_eq_false_2 by lia.
Qed.

Lemma RecordAccess_keeps_flags_witness :
  ∃ s',
    RecordAccess 1 scenario_state = Return tt s' ∧
    (∀ g, g ≠ 1 → is_evictable s' g = is_evictable scenario_state g) ∧
    (count_of scenario_state 1 = 0 →
     is_evictable s' 1 = true ∧ Size s' = Size scenario_state + 1) ∧
    (1 ≤ count_of scenario_state 1 →
     is_evictable s' 1 = is_evictable scenario_state 1 ∧
     Size s' = Size scenario_state).
Proof.
  apply (RecordAccess_keeps_flags scenario_state 1).
  - reach 7 2 scenario.
  - vm_compute. by intros [=].
Defined.

(** ** Where a frame is *)

(** X3 -- a frame's access count decides where it is: it is in the Early
    Set exactly when the count is between 1 and [k - 1], in the Stable Set
    exactly when the count is at least [k], and no frame occurs twice in
    the two lists taken together.  The history holds [min count k]
    timestamps. *)
Theorem count_decides_set (s : LRUKReplacer) :
  reachable s →
  NoDup (new_frame_ s ++ (cache_frame_ s).*1) ∧
  ∀ f,
    (f ∈ new_frame_ s ↔ 1 ≤ count_of s f < k_ s) ∧
    (f ∈ (cache_frame_ s).*1 ↔ k_ s ≤ count_of s f) ∧
    Z.of_nat (length (history_of s f)) = Z.min (count_of s f) (k_ s).
Proof.
  intros Hwf%reachable_wf. split; [by apply wf_nodup|]. intros f.
  split_and!; [by apply wf_early|by apply wf_stable|by apply wf_hist].
Qed.

Lemma count_decides_set_witness :
  NoDup (new_frame_ scenario_state ++ (cache_frame_ scenario_state).*1) ∧
  ∀ f,
    (f ∈ new_frame_ scenario_state ↔
     1 ≤ count_of scenario_state f < k_ scenario_state) ∧
    (f ∈ (cache_frame_ scenario_state).*1 ↔
     k_ scenario_state ≤ count_of scenario_state f) ∧
    Z.of_nat (length (history_of scenario_state f)) =
      Z.min (count_of scenario_state f) (k_ scenario_state).
Proof. apply (count_decides_set scenario_state). reach 7 2 scenario. Defined.

(** ** The parameters of the constructor *)

(** X4 -- a replacer constructed with [k = 0] runs into undefined
    behaviour on the first access of any in-range frame: the count, 1,
    exceeds [k], so lines 81-83 erase through the iterator
    [cache_locate_[frame_id]], which no call has set. *)
Theorem k_zero_first_access_undefined (num_frames f : Z) :
  f ≤ static_cast_frame_id_t num_frames →
  RecordAccess f (new_LRUKReplacer num_frames 0) = Undefined.
Proof.
  intros Hf%Z.ltb_ge.
  assert (∀ V (d : V), at_default d ∅ f = d) as Hempty.
  { intros. unfold at_default. by rewrite lookup_empty. }
  unfold RecordAccess, RecordAccess_begin. fields.
  simpl replacer_size_. rewrite Hf. simpl hist. simpl recorded_cnt_.
  simpl current_timestamp_.
  rewrite !at_default_insert_eq, !Hempty.
  change (wrap_size_t (0 + 1)) with 1. change (1 =? 1) with true. fields.
  rewrite !at_default_insert_eq. simpl k_.
  change (1 =? 0) with false. change (0 <? 1) with true. cbv iota.
  simpl app. cbv iota. fields. reflexivity.
Qed.

Lemma k_zero_first_access_undefined_witness :
  RecordAccess 1 (new_LRUKReplacer 7 0) = Undefined.
Proof.
  apply (k_zero_first_access_undefined 7 1). vm_compute. by intros [=].
Defined.

(** ** The range check *)

(** X5 -- the three guarded calls in a reachable state: a frame id above
    the capacity makes [RecordAccess], [SetEvictable] and [Remove] throw
    and leaves the state as it is; for every other id, negative ids and
    the capacity itself included, [RecordAccess] and [SetEvictable] return
    normally. *)
Theorem range_check_is_above_capacity (s : LRUKReplacer) (f : Z) (b : bool) :
  reachable s →
  (static_cast_frame_id_t (replacer_size_ s) < f →
   RecordAccess f s = Throw s ∧ SetEvictable f b s = Throw s ∧
   Remove f s = Throw s) ∧
  (f ≤ static_cast_frame_id_t (replacer_size_ s) →
   (∃ s', RecordAccess f s = Return tt s') ∧
   (∃ s', SetEvictable f b s = Return tt s')).
Proof.
  intros Hreach. split; [by apply above_capacity_throws|]. intros Hf. split.
  - destruct (RecordAccess_summary s f (reachable_wf s Hreach)
                (reachable_clock s Hreach) Hf) as (s' & Hret & _).
    by exists s'.
  - apply Z.ltb_ge in Hf. unfold SetEvictable. rewrite Hf.
    repeat case_match; by eexists.
Qed.

Lemma range_check_is_above_capacity_witness :
  (static_cast_frame_id_t (replacer_size_ scenario_state) < 7 →
   RecordAccess 7 scenario_state = Throw scenario_state ∧
   SetEvictable 7 false scenario_state = Throw scenario_state ∧
   Remove 7 scenario_state = Throw scenario_state) ∧
  (7 ≤ static_cast_frame_id_t (replacer_size_ scenario_state) →
   (∃ s', RecordAccess 7 scenario_state = Return tt s') ∧
   (∃ s', SetEvictable 7 false scenario_state = Return tt s')).
Proof.
  apply (range_check_is_above_capacity scenario_state 7 false).
  reach 7 2 scenario.
Defined.

(** ** [SetEvictable] *)

Lemma set_curr_size_same s : set_curr_size_ (curr_size_ s) s = s.
Proof. by destruct s. Qed.

Lemma at_default_is_Some {V} (d v : V) (m : gmap Z V) k :
  at_default d m k = v → v ≠ d → m !! k = Some v.
Proof.
  unfold at_default. destruct (m !! k); simpl; [by intros ->|congruence].
Qed.

(** A tracked frame has its entries in the tables. *)
Lemma wf_tracked_entries s f :
  wf s → 1 ≤ count_of s f →
  evictable_ s !! f = Some (is_evictable s f) ∧
  is_Some (recorded_cnt_ s !! f).
Proof.
  intros Hwf Hc. split.
  - destruct (wf_flag s Hwf f Hc) as [b Hb].
    unfold is_evictable, at_default. by rewrite Hb.
  - unfold count_of, at_default in Hc.
    destruct (recorded_cnt_ s !! f); [done|simpl in Hc; lia].
Qed.

(** Size is at least one as soon as a tracked frame is evictable, and stays
    below the number of tracked frames when one is pinned. *)
Lemma wf_size_tracked s f :
  wf s → 1 ≤ count_of s f →
  if is_evictable s f then 1 ≤ curr_size_ s
  else curr_size_ s + 1 ≤ current_timestamp_ s.
Proof.
  intros Hwf Hc.
  destruct (NoDup_elem_of_front f (tracked s)) as (l' & Hperm & Hfl').
  { by apply wf_nodup. } { by apply wf_tracked_iff. }
  pose proof (wf_tracked s Hwf) as Ht. rewrite Hperm in Ht.
  pose proof (wf_size s Hwf) as Hsz. rewrite Hperm, filter_cons in Hsz.
  pose proof (length_filter (λ f, is_evictable s f = true) l').
  destruct (is_evictable s f); simpl in *; lia.
Qed.

(** What [SetEvictable] does to a tracked frame whose flag differs. *)
Lemma SetEvictable_flip s f b :
  wf s → 1 ≤ count_of s f → is_evictable s f = negb b →
  SetEvictable f b s =
  Return tt (set_curr_size_ (if b then curr_size_ s + 1 else curr_size_ s - 1)
               (set_evictable_ (<[f := b]> (evictable_ s)) s)).
Proof.
  intros Hwf Hc Hev.
  destruct (wf_tracked_entries s f Hwf Hc) as [Hentry Hcnt].
  pose proof (wf_range s Hwf f ltac:(by eexists)) as Hf%Z.ltb_ge.
  pose proof (wf_size_tracked s f Hwf Hc) as Hsz. rewrite Hev in Hsz.
  pose proof (wf_size_bound s Hwf) as Hb. pose proof (wf_clock s Hwf) as Hclk.
  unfold SetEvictable. rewrite Hf. fold (is_evictable s f). rewrite Hev.
  rewrite bool_decide_eq_false_2 by (by destruct b).
  rewrite subscript_is_Some, set_evictable_same by by eexists.
  fold (count_of s f). destruct (Z.eqb_spec (count_of s f) 0); [lia|].
  rewrite subscript_is_Some, set_recorded_cnt_same by done.
  destruct b; simpl in Hsz; fields; by rewrite wrap_size_t_small by lia.
Qed.

(** X6 -- in a reachable state, [SetEvictable] with a frame id that
    passes the guard of line 95, that is an id not above
    [static_cast<frame_id_t>(replacer_size_)], returns normally and
    touches nothing but the flag of that frame and the size: when the
    frame is tracked its flag becomes the one asked for and [Size()] moves
    by one if the flag has changed; when the frame is not tracked nothing
    observable changes.  Counts, histories and both lists stay as they
    are. *)
Theorem SetEvictable_effect (s : LRUKReplacer) (f : Z) (b : bool) :
  reachable s → f ≤ static_cast_frame_id_t (replacer_size_ s) →
  ∃ s',
    SetEvictable f b s = Return tt s' ∧
    is_evictable s' f = (if bool_decide (1 ≤ count_of s f) then b
                         else is_evictable s f) ∧
    Size s' =
      (if bool_decide (1 ≤ count_of s f)
       then Size s + Z.b2z b - Z.b2z (is_evictable s f)
       else Size s) ∧
    (∀ g, g ≠ f → is_evictable s' g = is_evictable s g) ∧
    (∀ g, count_of s' g = count_of s g ∧ history_of s' g = history_of s g) ∧
    new_frame_ s' = new_frame_ s ∧ cache_frame_ s' = cache_frame_ s.
Proof.
  intros Hwf%reachable_wf Hf. pose proof (wf_count s Hwf f) as Hcnt.
  destruct (decide (1 ≤ count_of s f ∧ is_evictable s f = negb b))
    as [[Hc Hev]|Hsame].
  - rewrite (SetEvictable_flip s f b Hwf Hc Hev). eexists. split; [done|].
    rewrite !bool_decide_eq_true_2 by done. unfold is_evictable, Size in *.
    simpl. rewrite at_default_insert_eq, Hev.
    split_and!; [done|by destruct b; simpl; lia| |done..].
    intros g Hg. by rewrite at_default_insert_ne.
  - apply Z.ltb_ge in Hf. unfold SetEvictable. rewrite Hf. fields.
    fold (is_evictable s f) (count_of s f).
    assert (∀ s', (∀ g, is_evictable s' g = is_evictable s g) →
                  (∀ g, count_of s' g = count_of s g) →
                  hist s' = hist s → curr_size_ s' = curr_size_ s →
                  new_frame_ s' = new_frame_ s →
                  cache_frame_ s' = cache_frame_ s →
      is_evictable s' f = (if bool_decide (1 ≤ count_of s f) then b
                           else is_evictable s f) ∧
      Size s' =
        (if bool_decide (1 ≤ count_of s f)
         then Size s + Z.b2z b - Z.b2z (is_evictable s f)
         else Size s) ∧
      (∀ g, g ≠ f → is_evictable s' g = is_evictable s g) ∧
      (∀ g, count_of s' g = count_of s g ∧ history_of s' g = history_of s g) ∧
      new_frame_ s' = new_frame_ s ∧ cache_frame_ s' = cache_frame_ s) as Hobs.
    { intros s' Hev' Hcnt' Hhist' Hsz' Hnf' Hcf'. unfold Size, history_of.
      rewrite Hev', Hsz', Hhist'. split_and!; try done.
      - case_bool_decide; [|done].
        destruct (is_evictable s f) eqn:He, b; try done; destruct Hsame; done.
      - case_bool_decide; [|done].
        destruct (is_evictable s f) eqn:He, b; simpl; try lia;
          destruct Hsame; done. }
    destruct (bool_decide_reflect (is_evictable s f = b)) as [Heq|Heq].
    + eexists. split; [done|]. apply Hobs; try done.
      intros g. unfold is_evictable. simpl. apply at_default_subscript.
    + destruct (Z.eqb_spec (count_of s f) 0) as [Hz|Hnz].
      * eexists. split; [done|]. apply Hobs; try done.
        -- intros g. unfold is_evictable. simpl. apply at_default_subscript.
        -- intros g. unfold count_of. simpl. apply at_default_subscript.
      * destruct Hsame. split; [lia|].
        destruct (is_evictable s f), b; done.
Qed.

Lemma SetEvictable_effect_witness :
  ∃ s',
    SetEvictable 2 false scenario_state = Return tt s' ∧
    is_evictable s' 2 =
      (if bool_decide (1 ≤ count_of scenario_state 2) then false
       else is_evictable scenario_state 2) ∧
    Size s' =
      (if bool_decide (1 ≤ count_of scenario_state 2)
       then Size scenario_state + Z.b2z false
            - Z.b2z (is_evictable scenario_state 2)
       else Size scenario_state) ∧
    (∀ g, g ≠ 2 → is_evictable s' g = is_evictable scenario_state g) ∧
    (∀ g, count_of s' g = count_of scenario_state g ∧
          history_of s' g = history_of scenario_state g) ∧
    new_frame_ s' = new_frame_ scenario_state ∧
    cache_frame_ s' = cache_frame_ scenario_state.
Proof.
  apply (SetEvictable_effect scenario_state 2 false).
  - reach 7 2 scenario.
  - vm_compute. by intros [=].
Defined.

Lemma subscript_subscript {V} (d : V) (m : gmap Z V) k :
  subscript d (subscript d m k) k = subscript d m k.
Proof. apply subscript_is_Some, subscript_lookup_is_Some. by left. Qed.

Lemma SetEvictable_again s f b s1 :
  state_after (SetEvictable f b s) = Some s1 →
  state_after (SetEvictable f b s1) = Some s1.
Proof.
  unfold SetEvictable at 1.
  destruct (static_cast_frame_id_t (replacer_size_ s) <? f) eqn:Hf.
  { intros [= <-]. unfold SetEvictable. by rewrite Hf. }
  fields. set (ev1 := subscript false (evictable_ s) f).
  set (cnt1 := subscript 0 (recorded_cnt_ s) f).
  destruct (bool_decide_reflect (at_default false (evictable_ s) f = b))
    as [Hsame|Hdiff].
  - intros [= <-]. unfold SetEvictable. fields. rewrite Hf.
    rewrite bool_decide_eq_true_2
      by (subst ev1; by rewrite at_default_subscript).
    subst ev1. by rewrite subscript_subscript.
  - destruct (at_default 0 (recorded_cnt_ s) f =? 0) eqn:Hz.
    + intros [= <-]. unfold SetEvictable. fields. rewrite Hf.
      rewrite bool_decide_eq_false_2
        by (subst ev1; by rewrite at_default_subscript).
      subst cnt1 ev1. rewrite at_default_subscript, Hz.
      by rewrite !subscript_subscript.
    + assert (∀ z,
        state_after
          (SetEvictable f b
             (set_curr_size_ z
                (set_evictable_ (<[f := b]> ev1)
                   (set_recorded_cnt_ cnt1 (set_evictable_ ev1 s))))) =
        Some (set_curr_size_ z
                (set_evictable_ (<[f := b]> ev1)
                   (set_recorded_cnt_ cnt1 (set_evictable_ ev1 s))))) as Hagain.
      { intros z. unfold SetEvictable. fields. rewrite Hf.
        rewrite bool_decide_eq_true_2 by by rewrite at_default_insert_eq.
        rewrite subscript_is_Some by (rewrite lookup_insert_eq; by eexists).
        done. }
      destruct b; intros [= <-]; apply Hagain.
Qed.

(** [SetEvictable] returns normally as soon as the frame id passes the
    guard of line 95, and leaves the capacity alone. *)
Lemma SetEvictable_returns s f b :
  f ≤ static_cast_frame_id_t (replacer_size_ s) →
  ∃ s1, SetEvictable f b s = Return tt s1 ∧
        replacer_size_ s1 = replacer_size_ s.
Proof.
  intros Hf%Z.ltb_ge. unfold SetEvictable. rewrite Hf.
  repeat case_match; by eexists.
Qed.

(** X7 -- [SetEvictable] is idempotent in every state.  With a frame id
    above [static_cast<frame_id_t>(replacer_size_)] the call throws and
    leaves the state as it is, so the same call throws again.  With any
    other id the call returns normally, and the same call made in the
    state it has left returns normally again and leaves that very
    state. *)
Theorem SetEvictable_idempotent (s : LRUKReplacer) (f : Z) (b : bool) :
  (static_cast_frame_id_t (replacer_size_ s) < f ∧
   SetEvictable f b s = Throw s) ∨
  (f ≤ static_cast_frame_id_t (replacer_size_ s) ∧
   ∃ s1, SetEvictable f b s = Return tt s1 ∧
         SetEvictable f b s1 = Return tt s1).
Proof.
  destruct (Z.lt_ge_cases (static_cast_frame_id_t (replacer_size_ s)) f)
    as [Hf|Hf].
  { left. split; [done|]. apply Z.ltb_lt in Hf.
    unfold SetEvictable. by rewrite Hf. }
  right. split; [done|].
  destruct (SetEvictable_returns s f b Hf) as (s1 & Hcall & Hsize).
  destruct (SetEvictable_returns s1 f b) as (s2 & Hcall2 & _).
  { by rewrite Hsize. }
  exists s1. split; [done|].
  pose proof (SetEvictable_again s f b s1) as Hagain.
  rewrite Hcall, Hcall2 in Hagain. by injection (Hagain eq_refl) as ->.
Qed.

(** X8 -- pinning and unpinning is a round trip: on a tracked frame of a
    reachable state, setting the flag to its opposite and then back to
    what it was returns normally both times and restores the state
    exactly, size included. *)
Theorem flag_round_trip (s : LRUKReplacer) (f : Z) :
  reachable s → f ∈ tracked s →
  ∃ s1,
    SetEvictable f (negb (is_evictable s f)) s = Return tt s1 ∧
    is_evictable s1 f = negb (is_evictable s f) ∧
    SetEvictable f (is_evictable s f) s1 = Return tt s.
Proof.
  intros Hwf%reachable_wf Hc%wf_tracked_iff; [|done].
  destruct (wf_tracked_entries s f Hwf Hc) as [Hentry _].
  set (b := is_evictable s f) in *.
  assert (is_evictable s f = negb (negb b)) as Hev
    by (by rewrite negb_involutive).
  rewrite (SetEvictable_flip s f (negb b) Hwf Hc Hev).
  pose proof (wf_flip s f (negb b) Hwf Hc Hev) as Hwf1.
  eexists. split; [done|].
  match goal with |- is_evictable ?s1 f = _ ∧ _ =>
    assert (is_evictable s1 f = negb b) as Hev1
      by (unfold is_evictable; simpl; by rewrite at_default_insert_eq);
    assert (count_of s1 f = count_of s f) as Hc1 by done
  end.
  split; [done|].
  rewrite (SetEvictable_flip _ f b Hwf1 ltac:(by rewrite Hc1) Hev1).
  f_equal. fields. rewrite insert_insert_eq, insert_id by done.
  assert ((if b then (if negb b then curr_size_ s + 1 else curr_size_ s - 1) + 1
           else (if negb b then curr_size_ s + 1 else curr_size_ s - 1) - 1)
          = curr_size_ s) as Hsz by (destruct b; simpl; lia).
  rewrite Hsz. by destruct s.
Qed.

Lemma flag_round_trip_witness :
  ∃ s1,
    SetEvictable 2 (negb (is_evictable scenario_state 2)) scenario_state
      = Return tt s1 ∧
    is_evictable s1 2 = negb (is_evictable scenario_state 2) ∧
    SetEvictable 2 (is_evictable scenario_state 2) s1
      = Return tt scenario_state.
Proof.
  apply (flag_round_trip scenario_state 2).
  - reach 7 2 scenario.
  - vm_compute. do 4 right. by left.
Defined.

(** ** [Evict] and [Remove] *)

Lemma retire_early_size s f l : Size (retire_early f l s) = Size s - 1.
Proof. done. Qed.

Lemma retire_stable_size s f l : Size (retire_stable f l s) = Size s - 1.
Proof. done. Qed.

(** X9 -- in a reachable state [Evict] finds a frame exactly when
    [Size()] is not zero; when it is zero the state stays as it is.  The
    [return false] behind the two loops (line 50) is never the one
    taken. *)
Theorem Evict_finds_iff_Size_positive (s : LRUKReplacer) :
  reachable s →
  (Size s = 0 ∧ Evict s = Return None s) ∨
  (0 < Size s ∧
   ∃ f s', Evict s = Return (Some f) s' ∧
           f ∈ tracked s ∧ is_evictable s f = true ∧ Size s' = Size s - 1).
Proof.
  intros Hwf%reachable_wf. pose proof (wf_size_bound s Hwf) as Hb.
  destruct (Evict_cases s Hwf) as
    [[Hnone Hcall]|[(f & l1 & l2 & Hnf & Hev & _ & Hcall)
                   |(f & t & l1 & l2 & _ & Hcf & Hev & _ & Hcall)]].
  - left. split; [by apply not_evictable_size|done].
  - assert (f ∈ tracked s) as Hin.
    { apply elem_of_app. left. rewrite Hnf. apply elem_of_middle. by left. }
    pose proof (wf_size_tracked s f Hwf
                  (proj1 (wf_tracked_iff s f Hwf) Hin)) as Hsz.
    rewrite Hev in Hsz. right. split; [unfold Size; lia|].
    by exists f, (retire_early f (l1 ++ l2) s).
  - assert (f ∈ tracked s) as Hin.
    { apply elem_of_app. right. rewrite Hcf, fmap_app, fmap_cons.
      apply elem_of_middle. by left. }
    pose proof (wf_size_tracked s f Hwf
                  (proj1 (wf_tracked_iff s f Hwf) Hin)) as Hsz.
    rewrite Hev in Hsz. right. split; [unfold Size; lia|].
    by exists f, (retire_stable f (l1 ++ l2) s).
Qed.

Lemma Evict_finds_iff_Size_positive_witness :
  (Size scenario_state = 0 ∧
   Evict scenario_state = Return None scenario_state) ∨
  (0 < Size scenario_state ∧
   ∃ f s', Evict scenario_state = Return (Some f) s' ∧
           f ∈ tracked scenario_state ∧
           is_evictable scenario_state f = true ∧
           Size s' = Size scenario_state - 1).
Proof.
  apply (Evict_finds_iff_Size_positive scenario_state). reach 7 2 scenario.
Defined.

(** X10 -- [Remove] on a tracked, evictable frame of a reachable state
    returns normally and retires the frame: its count is zero and its
    history empty afterwards, it is in neither list, and [Size()] has
    dropped by one. *)
Theorem Remove_retires_frame (s : LRUKReplacer) (f : Z) :
  reachable s → f ∈ tracked s → is_evictable s f = true →
  ∃ s',
    Remove f s = Return tt s' ∧
    count_of s' f = 0 ∧ history_of s' f = [] ∧
    (f ∉ tracked s') ∧ Size s' = Size s - 1.
Proof.
  intros Hwf%reachable_wf Hin Hev.
  pose proof (proj1 (wf_tracked_iff s f Hwf) Hin) as Hc.
  assert (∀ s', wf s' → count_of s' f = 0 → f ∉ tracked s') as Hout.
  { intros s' Hwf' Hz. rewrite wf_tracked_iff by done. lia. }
  destruct (Remove_cases s f Hwf) as
    [[[Hf|[_ Hev']] _]|[(_ & Hnone & _)|(_ & _ &
      [[Hz _]|[(l1 & l2 & _ & Hnf & ->)|(t & l1 & l2 & _ & Hcf & ->)]])]].
  - pose proof (wf_range s Hwf f (wf_tracked_flag s f Hwf Hin)). lia.
  - congruence.
  - destruct (wf_tracked_flag s f Hwf Hin) as [b Hb]. congruence.
  - lia.
  - eexists. split; [done|].
    assert (count_of (retire_early f (l1 ++ l2) s) f = 0) as Hz
      by (observe; by rewrite at_default_insert_eq).
    split_and!; [done|observe; by rewrite at_default_insert_eq| |done].
    apply Hout; [by eapply wf_retire_early|done].
  - eexists. split; [done|].
    assert (count_of (retire_stable f (l1 ++ l2) s) f = 0) as Hz
      by (observe; by rewrite at_default_insert_eq).
    split_and!; [done|observe; by rewrite at_default_insert_eq| |done].
    apply Hout; [by eapply wf_retire_stable|done].
Qed.

Lemma Remove_retires_frame_witness :
  ∃ s',
    Remove 1 scenario_state = Return tt s' ∧
    count_of s' 1 = 0 ∧ history_of s' 1 = [] ∧
    (1 ∉ tracked s') ∧ Size s' = Size scenario_state - 1.
Proof.
  apply (Remove_retires_frame scenario_state 1).
  - reach 7 2 scenario.
  - vm_compute. do 5 right. by left.
  - reflexivity.
Defined.

(** X11 -- [Evict] is [Remove] of the frame it picks: when [Evict]
    returns [f] in a reachable state, [Remove(f)] in that state returns
    normally and leaves the very same state. *)
Theorem Evict_is_Remove_of_victim (s s' : LRUKReplacer) (f : Z) :
  reachable s → Evict s = Return (Some f) s' → Remove f s = Return tt s'.
Proof.
  intros Hwf%reachable_wf Hcall. pose proof (wf_k s Hwf) as Hk.
  destruct (Evict_cases s Hwf) as
    [[_ He]|[(f' & l1 & l2 & Hnf & Hev & _ & He)
            |(f' & t & l1 & l2 & _ & Hcf & Hev & _ & He)]];
    rewrite He in Hcall; [done|..]; injection Hcall as -> <-.
  - assert (1 ≤ count_of s f < k_ s) as Hc.
    { apply (wf_early s Hwf). rewrite Hnf. apply elem_of_middle. by left. }
    destruct (Remove_cases s f Hwf) as
      [[[Hf|[_ Hev']] _]|[(_ & Hnone & _)|(_ & _ &
        [[Hz _]|[(l1' & l2' & _ & Hnf' & ->)|(t & l1' & l2' & ? & _)]])]];
      try lia; try congruence.
    + assert (f ≤ static_cast_frame_id_t (replacer_size_ s)); [|lia].
      apply (wf_range s Hwf), (wf_flag s Hwf). lia.
    + unfold is_evictable, at_default in Hev. by rewrite Hnone in Hev.
    + destruct (retire_early_frame s f l1 l2 Hwf Hnf) as [E1 _].
      destruct (retire_early_frame s f l1' l2' Hwf Hnf') as [E2 _].
      simpl in E1, E2. by rewrite E1, E2.
  - assert (k_ s ≤ count_of s f) as Hc.
    { apply (wf_stable s Hwf). rewrite Hcf, fmap_app, fmap_cons.
      apply elem_of_middle. by left. }
    destruct (Remove_cases s f Hwf) as
      [[[Hf|[_ Hev']] _]|[(_ & Hnone & _)|(_ & _ &
        [[Hz _]|[(l1' & l2' & ? & _)|(t' & l1' & l2' & _ & Hcf' & ->)]])]];
      try lia; try congruence.
    + assert (f ≤ static_cast_frame_id_t (replacer_size_ s)); [|lia].
      apply (wf_range s Hwf), (wf_flag s Hwf). lia.
    + unfold is_evictable, at_default in Hev. by rewrite Hnone in Hev.
    + destruct (retire_stable_frame s f t l1 l2 Hwf Hcf) as [_ E1].
      destruct (retire_stable_frame s f t' l1' l2' Hwf Hcf') as [_ E2].
      simpl in E1, E2. by rewrite E1, E2.
Qed.

Lemma Evict_is_Remove_of_victim_witness :
  Remove 2 scenario_state =
  Return tt (state_of 7 2 (scenario ++ [CallEvict])).
Proof.
  apply (Evict_is_Remove_of_victim scenario_state
           (state_of 7 2 (scenario ++ [CallEvict])) 2).
  - reach 7 2 scenario.
  - vm_compute. reflexivity.
Defined.

(** ** Draining the replacer *)

Lemma filter_evictable_none s (l : list Z) :
  Forall (λ g, is_evictable s g = false) l →
  filter (λ g, is_evictable s g = true) l = [] ∧
  filter (λ g, is_evictable s g = false) l = l.
Proof.
  intros Hall. split.
  - apply filter_none. eapply Forall_impl; [exact Hall|]. simpl. congruence.
  - by apply filter_all.
Qed.

Lemma evictions_Evict s r s' cs :
  Evict s = Return r s' →
  evictions (CallEvict :: cs) s = (r, Size s') :: evictions cs s' ∧
  run (CallEvict :: cs) s = run cs s'.
Proof. intros Hcall. simpl. by rewrite Hcall. Qed.

(** [n] evictions in a well-formed state of size [n]. *)
Lemma drain_wf (n : nat) (s : LRUKReplacer) :
  wf s → Size s = Z.of_nat n →
  (evictions (replicate n CallEvict) s).*1 =
    Some <$> (reverse (filter (λ g, is_evictable s g = true) (new_frame_ s))
              ++ filter (λ g, is_evictable s g = true) (cache_frame_ s).*1) ∧
  ∃ s',
    run (replicate n CallEvict) s = Some s' ∧ Size s' = 0 ∧
    new_frame_ s' = filter (λ g, is_evictable s g = false) (new_frame_ s) ∧
    cache_frame_ s' =
      filter (λ p : k_time, is_evictable s p.1 = false) (cache_frame_ s).
Proof.
  revert s. induction n as [|n IH]; intros s Hwf Hsz.
  - apply (not_evictable_size s Hwf) in Hsz.
    apply Forall_app in Hsz as [Hnf Hcf].
    destruct (filter_evictable_none s _ Hnf) as [-> Hnf'].
    destruct (filter_evictable_none s _ Hcf) as [-> _].
    split; [done|]. exists s. split_and!; [done| |done|].
    + apply not_evictable_size; [done|]. apply Forall_app. by split.
    + symmetry. apply filter_all. by apply Forall_fmap in Hcf.
  - destruct (Evict_cases s Hwf) as
      [[Hnone _]|[(f & l1 & l2 & Hnf & Hev & Hold & Hcall)
                 |(f & t & l1 & l2 & Hearly & Hcf & Hev & Hbefore & Hcall)]].
    + apply (not_evictable_size s Hwf) in Hnone. lia.
    + destruct (IH (retire_early f (l1 ++ l2) s))
        as (Hlog & s' & Hrun & Hz & Hnf' & Hcf').
      { by eapply wf_retire_early. }
      { rewrite retire_early_size. lia. }
      change (is_evictable (retire_early f (l1 ++ l2) s))
        with (is_evictable s) in *.
      simpl in Hlog, Hnf', Hcf'.
      destruct (filter_evictable_none s _ Hold) as [Hold1 Hold2].
      destruct (evictions_Evict s _ _ (replicate n CallEvict) Hcall)
        as [Hlog1 Hrun1].
      assert (replicate (S n) CallEvict = CallEvict :: replicate n CallEvict)
        as Hrep by done.
      split.
      * rewrite Hrep, Hlog1, fmap_cons, Hlog, Hnf. simpl fst.
        rewrite !filter_app, filter_cons_True, Hold1, app_nil_r by done.
        by rewrite reverse_app.
      * exists s'. rewrite Hrep, Hrun1.
        split_and!; [done|done| |done].
        rewrite Hnf', Hnf, !filter_app, filter_cons_False; [done|].
        by rewrite Hev.
    + destruct (IH (retire_stable f (l1 ++ l2) s))
        as (Hlog & s' & Hrun & Hz & Hnf' & Hcf').
      { by eapply wf_retire_stable. }
      { rewrite retire_stable_size. lia. }
      change (is_evictable (retire_stable f (l1 ++ l2) s))
        with (is_evictable s) in *.
      simpl in Hlog, Hnf', Hcf'.
      destruct (filter_evictable_none s _ Hearly) as [Hearly1 Hearly2].
      apply (Forall_fmap fst (λ g, is_evictable s g = false)) in Hbefore.
      destruct (filter_evictable_none s _ Hbefore) as [Hbefore1 _].
      destruct (evictions_Evict s _ _ (replicate n CallEvict) Hcall)
        as [Hlog1 Hrun1].
      assert (replicate (S n) CallEvict = CallEvict :: replicate n CallEvict)
        as Hrep by done.
      split.
      * rewrite Hrep, Hlog1, fmap_cons, Hlog, Hcf, Hearly1. simpl fst.
        rewrite !fmap_app, fmap_cons, !filter_app, filter_cons_True by done.
        by rewrite Hbefore1.
      * exists s'. rewrite Hrep, Hrun1.
        split_and!; [done|done|done|].
        rewrite Hcf', Hcf, !filter_app, filter_cons_False; [done|].
        simpl. by rewrite Hev.
Qed.

(** X12 -- draining: calling [Evict] [Size()] times in a reachable state
    returns, in this order, the evictable frames of the Early Set from the
    oldest to the newest and then the evictable frames of the Stable Set
    from the smallest Kth-back timestamp on.  The size is zero afterwards
    and the pinned frames, and only they, are left in the two lists, in
    their order. *)
Theorem Evict_drains_in_order (s : LRUKReplacer) :
  reachable s →
  (evictions (replicate (Z.to_nat (Size s)) CallEvict) s).*1 =
    Some <$> (reverse (filter (λ g, is_evictable s g = true) (new_frame_ s))
              ++ filter (λ g, is_evictable s g = true) (cache_frame_ s).*1) ∧
  ∃ s',
    run (replicate (Z.to_nat (Size s)) CallEvict) s = Some s' ∧ Size s' = 0 ∧
    new_frame_ s' = filter (λ g, is_evictable s g = false) (new_frame_ s) ∧
    cache_frame_ s' =
      filter (λ p : k_time, is_evictable s p.1 = false) (cache_frame_ s).
Proof.
  intros Hwf%reachable_wf. apply drain_wf; [done|].
  pose proof (wf_size_bound s Hwf). unfold Size. lia.
Qed.

Lemma Evict_drains_in_order_witness :
  (evictions (replicate (Z.to_nat (Size scenario_state)) CallEvict)
     scenario_state).*1 =
    Some <$> (reverse (filter (λ g, is_evictable scenario_state g = true)
                         (new_frame_ scenario_state))
              ++ filter (λ g, is_evictable scenario_state g = true)
                   (cache_frame_ scenario_state).*1) ∧
  ∃ s',
    run (replicate (Z.to_nat (Size scenario_state)) CallEvict) scenario_state
      = Some s' ∧
    Size s' = 0 ∧
    new_frame_ s' = filter (λ g, is_evictable scenario_state g = false)
                      (new_frame_ scenario_state) ∧
    cache_frame_ s' =
      filter (λ p : k_time, is_evictable scenario_state p.1 = false)
        (cache_frame_ scenario_state).
Proof.
  apply (Evict_drains_in_order scenario_state). reach 7 2 scenario.
Defined.

(** The scenario drained: frames 2 to 6, oldest first, then frame 1. *)
Example drain_scenario :
  (evictions (replicate 6 CallEvict) scenario_state).*1 =
  [Some 2; Some 3; Some 4; Some 5; Some 6; Some 1].
Proof. vm_compute. reflexivity. Qed.

(** ** Timestamps *)

Lemma StronglySorted_drop {A} (R : relation A) (l : list A) d :
  StronglySorted R l → StronglySorted R (drop d l).
Proof.
  intros Hs. rewrite <- (take_drop d l) in Hs.
  by apply StronglySorted_app_1_r in Hs.
Qed.

Lemma timestamps_step s s' :
  0 ≤ current_timestamp_ s →
  timestamps_ok s → history_step s s' → timestamps_ok s'.
Proof.
  intros Hpos (Hbound & Hsorted & Howner) (f & h & Hhist & Hstep).
  assert (∀ t, t ∈ h →
            t ∈ history_of s f ∨
            (t = current_timestamp_ s + 1 ∧
             current_timestamp_ s' = current_timestamp_ s + 1)) as Hsub.
  { intros t Hin. destruct Hstep as [[_ [->| ->]]|[Hts [d ->]]].
    - by apply not_elem_of_nil in Hin.
    - by left.
    - apply subseteq_drop, elem_of_app in Hin as [?|Hin]; [by left|].
      apply list_elem_of_singleton in Hin. by right. }
  assert (current_timestamp_ s ≤ current_timestamp_ s') as Hmono.
  { destruct Hstep as [[-> _]|[-> _]]; lia. }
  assert (StronglySorted Z.lt h) as Hh.
  { destruct Hstep as [[_ [->| ->]]|[Hts [d ->]]]; [constructor|done|].
    apply StronglySorted_drop, StronglySorted_app.
    split_and!; [|done|repeat constructor].
    intros x y Hx ->%list_elem_of_singleton.
    specialize (Hbound f x Hx). lia. }
  assert (∀ g t, t ∈ history_of s' g →
            (t ∈ history_of s g ∧ (g = f → t ∈ h)) ∨
            (g = f ∧ t = current_timestamp_ s + 1 ∧
             current_timestamp_ s' = current_timestamp_ s + 1)) as Hsplit.
  { intros g t. rewrite Hhist. destruct (decide (f = g)) as [<-|Hne].
    - intros Hin. destruct (Hsub t Hin) as [?|[-> ?]]; [by left|by right].
    - intros Hin. left. split; [done|]. by intros ->. }
  split_and!.
  - intros g t [[Hin _]|(-> & -> & Hts)]%Hsplit; [|lia].
    specialize (Hbound g t Hin). lia.
  - intros g. rewrite Hhist. by destruct (decide (f = g)).
  - intros g1 g2 t H1%Hsplit H2%Hsplit.
    destruct H1 as [[H1 _]|(-> & E1 & _)], H2 as [[H2 _]|(-> & E2 & _)];
      [by eapply Howner| | |done].
    + specialize (Hbound _ _ H1). lia.
    + specialize (Hbound _ _ H2). lia.
Qed.

Lemma history_step_same s s' :
  hist s' = hist s → current_timestamp_ s' = current_timestamp_ s →
  history_step s s'.
Proof.
  intros Hh Hts. exists 0, (history_of s 0). split; [|left; auto].
  intros g. unfold history_of. rewrite Hh.
  by destruct (decide (0 = g)) as [<-|].
Qed.

Lemma history_step_retire s s' f :
  hist s' = <[f := []]> (hist s) →
  current_timestamp_ s' = current_timestamp_ s →
  history_step s s'.
Proof.
  intros Hh Hts. exists f, []. split; [|left; auto].
  intros g. unfold history_of. rewrite Hh. apply at_default_insert.
Qed.

Lemma SetEvictable_hist s f b s' :
  state_after (SetEvictable f b s) = Some s' →
  hist s' = hist s ∧ current_timestamp_ s' = current_timestamp_ s.
Proof.
  unfold SetEvictable. repeat case_match; by intros [= <-].
Qed.

Lemma do_call_history_step c s s' :
  wf s → current_timestamp_ s + 1 < size_t_modulus →
  do_call c s = Some s' → history_step s s'.
Proof.
  intros Hwf Hclock. destruct c as [f|f b| |f]; simpl.
  - destruct (Z.lt_ge_cases (static_cast_frame_id_t (replacer_size_ s)) f)
      as [Hf|Hf].
    + destruct (above_capacity_throws s f true Hf) as [-> _].
      intros [= <-]. by apply history_step_same.
    + destruct (RecordAccess_summary s f Hwf Hclock Hf)
        as (o & -> & _ & Hts & _ & Hhist & _).
      intros [= <-]. eexists f, _. split; [|right; split; [done|by eexists]].
      intros g. unfold history_of at 1. rewrite Hhist. apply at_default_insert.
  - intros [Hh Hts]%SetEvictable_hist. by apply history_step_same.
  - destruct (Evict_cases s Hwf) as
      [[_ ->]|[(f & l1 & l2 & _ & _ & _ & ->)
              |(f & t & l1 & l2 & _ & _ & _ & _ & ->)]];
      simpl; intros [= <-];
      [by apply history_step_same|by apply (history_step_retire _ _ f)..].
  - destruct (Remove_cases s f Hwf) as
      [[_ ->]|[(_ & _ & ->)|(_ & _ &
        [[_ ->]|[(l1 & l2 & _ & _ & ->)|(t & l1 & l2 & _ & _ & ->)]])]];
      simpl; intros [= <-];
      [by apply history_step_same..|by apply (history_step_retire _ _ f)
                                   |by apply (history_step_retire _ _ f)].
Qed.

(** A property that holds initially and is kept by every call on a
    well-formed state holds in every reachable state. *)
Lemma run_invariant (P : LRUKReplacer → Prop) cs s s' :
  (∀ c s s', wf s → current_timestamp_ s + 1 < size_t_modulus →
             P s → do_call c s = Some s' → P s') →
  wf s → P s →
  current_timestamp_ s + Z.of_nat (length cs) < size_t_modulus →
  run cs s = Some s' → P s'.
Proof.
  intros Hstep. revert s. induction cs as [|c cs IH]; intros s Hwf HP Hclock.
  - by intros [= <-].
  - simpl in Hclock. simpl.
    destruct (do_call_wf c s Hwf ltac:(lia)) as (s1 & Hc & Hwf1 & Hts1).
    rewrite Hc. apply IH; [done| |lia].
    apply (Hstep c s s1); [done|lia|done|done].
Qed.

Lemma reachable_timestamps_ok s : reachable s → timestamps_ok s.
Proof.
  intros (num_frames & k & cs & Hk & Hlen & Hrun).
  eapply (run_invariant timestamps_ok); [|by apply wf_new| | |exact Hrun].
  - intros c s1 s2 Hwf Hclock Hok Hcall.
    eapply timestamps_step; [by apply wf_clock|done|].
    by eapply do_call_history_step.
  - split_and!.
    + intros f t Hin. by apply not_elem_of_nil in Hin.
    + intros f. constructor.
    + intros f g t Hin. by apply not_elem_of_nil in Hin.
  - simpl. lia.
Qed.

Lemma sorted_distinct_strict (l : list k_time) :
  StronglySorted ts_le l → NoDup l.*1 →
  (∀ p q, p ∈ l → q ∈ l → p.2 = q.2 → p.1 = q.1) →
  StronglySorted (λ x y : k_time, x.2 < y.2) l.
Proof.
  induction l as [|x l IH]; intros Hs Hnd Hown; [constructor|].
  apply StronglySorted_cons in Hs as [Hall Hs].
  rewrite fmap_cons in Hnd. apply NoDup_cons in Hnd as [Hx Hnd].
  apply StronglySorted_cons. split.
  - rewrite Forall_forall in Hall |- *. intros y Hy.
    specialize (Hall y Hy). unfold ts_le in Hall.
    destruct (Z.eq_dec (x.2) (y.2)) as [Heq|]; [|lia].
    destruct Hx. rewrite (Hown x y); [by apply list_elem_of_fmap_2|by left
                                     |by right|done].
  - apply IH; [done..|]. intros p q Hp Hq. apply Hown; by right.
Qed.

(** X13 -- the timestamps of a reachable state: the entries of every
    history are strictly increasing values between 1 and the clock, and
    no timestamp is in the history of two frames.  So the members of the
    Stable Set have pairwise different Kth-back timestamps and the Stable
    Set is sorted strictly: a tie between two members does not arise. *)
Theorem Stable_Set_has_no_ties (s : LRUKReplacer) :
  reachable s →
  (∀ f, StronglySorted Z.lt (history_of s f) ∧
        Forall (λ t, 1 ≤ t ≤ current_timestamp_ s) (history_of s f)) ∧
  (∀ f g t, t ∈ history_of s f → t ∈ history_of s g → f = g) ∧
  StronglySorted (λ x y : k_time, x.2 < y.2) (cache_frame_ s).
Proof.
  intros Hreach. pose proof (reachable_wf s Hreach) as Hwf.
  destruct (reachable_timestamps_ok s Hreach) as (Hbound & Hsorted & Hown).
  split_and!; [|done|].
  - intros f. split; [done|]. apply Forall_forall. intros t. apply Hbound.
  - apply sorted_distinct_strict; [by apply wf_sorted| |].
    + pose proof (wf_nodup s Hwf) as Hnd.
      by apply NoDup_app in Hnd as (_ & _ & ?).
    + intros [f t] [g u] Hp Hq Heq. simpl in *. subst u.
      apply (Hown f g t); apply head_Some_elem_of; by apply (wf_kth s Hwf).
Qed.

Lemma Stable_Set_has_no_ties_witness :
  (∀ f, StronglySorted Z.lt (history_of scenario_state f) ∧
        Forall (λ t, 1 ≤ t ≤ current_timestamp_ scenario_state)
          (history_of scenario_state f)) ∧
  (∀ f g t, t ∈ history_of scenario_state f →
            t ∈ history_of scenario_state g → f = g) ∧
  StronglySorted (λ x y : k_time, x.2 < y.2) (cache_frame_ scenario_state).
Proof.
  apply (Stable_Set_has_no_ties scenario_state). reach 7 2 scenario.
Defined.

(** ** The clock *)

Lemma do_call_ticks c s s' :
  wf s → current_timestamp_ s + 1 < size_t_modulus →
  do_call c s = Some s' →
  current_timestamp_ s' =
  current_timestamp_ s +
  (if records_access (replacer_size_ s) c then 1 else 0).
Proof.
  intros Hwf Hclock. destruct c as [f|f b| |f]; simpl.
  - destruct (Z.lt_ge_cases (static_cast_frame_id_t (replacer_size_ s)) f)
      as [Hf|Hf].
    + destruct (above_capacity_throws s f true Hf) as [-> _].
      rewrite bool_decide_eq_false_2 by lia. intros [= <-]. lia.
    + destruct (RecordAccess_summary s f Hwf Hclock Hf)
        as (o & -> & _ & Hts & _).
      rewrite bool_decide_eq_true_2 by done. by intros [= <-].
  - destruct (SetEvictable_clock s f b) as (o & -> & Hts).
    intros [= <-]. lia.
  - destruct (Evict_clock s Hwf) as (o & -> & Hts). intros [= <-]. lia.
  - destruct (Remove_clock s f Hwf) as (o & -> & Hts). intros [= <-]. lia.
Qed.

Lemma run_ticks cs s s' :
  wf s → current_timestamp_ s + Z.of_nat (length cs) < size_t_modulus →
  run cs s = Some s' →
  current_timestamp_ s' =
  current_timestamp_ s +
  Z.of_nat (length (filter (λ c, records_access (replacer_size_ s) c) cs)).
Proof.
  revert s. induction cs as [|c cs IH]; intros s Hwf Hclock.
  - intros [= <-]. simpl. lia.
  - simpl in Hclock. simpl.
    destruct (do_call_wf c s Hwf ltac:(lia)) as (s1 & Hc & Hwf1 & Hts1).
    rewrite Hc. intros Hrun.
    pose proof (do_call_ticks c s s1 Hwf ltac:(lia) Hc) as Htick.
    apply do_call_parameters in Hc as [_ Hsize].
    rewrite (IH s1 Hwf1 ltac:(lia) Hrun), Hsize, Htick, filter_cons.
    destruct (records_access (replacer_size_ s) c); simpl length; lia.
Qed.

(** X14 -- the logical clock counts the accepted accesses: after a sequence
    of calls on a new replacer, [current_timestamp_] is the number of
    [RecordAccess] calls of the sequence whose frame id passed the range
    check.  A rejected [RecordAccess] and the calls of [SetEvictable],
    [Evict] and [Remove] leave the clock as it is. *)
Theorem clock_counts_accepted_accesses
    (num_frames k : Z) (cs : list call) (s : LRUKReplacer) :
  1 ≤ k → Z.of_nat (length cs) + 1 < size_t_modulus →
  run cs (new_LRUKReplacer num_frames k) = Some s →
  current_timestamp_ s =
  Z.of_nat (length (filter (λ c, records_access num_frames c) cs)).
Proof.
  intros Hk Hlen Hrun.
  apply run_ticks in Hrun; [done|by apply wf_new|simpl; lia].
Qed.

Lemma clock_counts_accepted_accesses_witness :
  current_timestamp_ (state_of 7 2 (scenario ++ [CallRecordAccess 9])) = 8.
Proof.
  apply (clock_counts_accepted_accesses 7 2 (scenario ++ [CallRecordAccess 9])).
  - lia.
  - vm_compute. reflexivity.
  - vm_compute. reflexivity.
Defined.

(** ** The replacement policy *)

(** The Early Set after an in-range [RecordAccess]: the frame is put in
    front on its first access (lines 66-67), taken out on its [k]-th
    (lines 71-72), and the list stays as it is otherwise. *)
Lemma RecordAccess_early_set s f :
  wf s → current_timestamp_ s + 1 < size_t_modulus →
  f ≤ static_cast_frame_id_t (replacer_size_ s) →
  ∃ s',
    RecordAccess f s = Return tt s' ∧
    ((count_of s f = 0 ∧ 1 < k_ s ∧ new_frame_ s' = f :: new_frame_ s) ∨
     (new_frame_ s' = new_frame_ s ∧
      (f ∈ new_frame_ s → count_of s f + 1 < k_ s)) ∨
     (∃ l1 l2, new_frame_ s = l1 ++ f :: l2 ∧ new_frame_ s' = l1 ++ l2)).
Proof.
  intros Hwf Hclock Hf.
  pose proof (wf_count s Hwf f) as Hcnt. pose proof (wf_k s Hwf) as Hk.
  pose proof (wf_early s Hwf f) as Hearly.
  destruct (Z.eq_dec (count_of s f) 0) as [Hzero|Hpos].
  - destruct (Z.eq_dec (k_ s) 1) as [Hone|Hmore].
    + destruct (RecordAccess_first_stable s f Hwf Hf Hclock Hzero Hone)
        as (c1 & c2 & _ & _ & _ & ->).
      eexists. split; [done|]. right. left. split; [done|].
      intros Hin%Hearly. lia.
    + rewrite (RecordAccess_first_early s f Hwf Hf Hclock Hzero) by lia.
      eexists. split; [done|]. left. split_and!; [done|lia|done].
  - destruct (Z.lt_trichotomy (count_of s f + 1) (k_ s)) as [Hlt|[Heq|Hgt]].
    + rewrite (RecordAccess_early s f Hwf Hf Hclock) by lia.
      eexists. split; [done|]. right. left. by split.
    + destruct (RecordAccess_promote s f Hwf Hf Hclock ltac:(lia) Heq)
        as (t & l1 & l2 & c1 & c2 & Hnf & _ & _ & _ & _ & ->).
      eexists. split; [done|]. do 2 right. by exists l1, l2.
    + destruct (RecordAccess_rerank s f Hwf Hf Hclock ltac:(lia))
        as (t & t' & h & a & b & c1 & c2 & _ & _ & _ & _ & _ & _ & ->).
      eexists. split; [done|]. right. left. split; [done|].
      intros Hin%Hearly. lia.
Qed.

Lemma StronglySorted_ext_in {A} (R R' : relation A) (l : list A) :
  (∀ x y, x ∈ l → y ∈ l → R x y → R' x y) →
  StronglySorted R l → StronglySorted R' l.
Proof.
  induction l as [|x l IH]; intros Himp Hs; [constructor|].
  apply StronglySorted_cons in Hs as [Hall Hs].
  apply StronglySorted_cons. split.
  - rewrite Forall_forall in Hall |- *. intros y Hy.
    apply Himp; [by left|by right|by apply Hall].
  - apply IH; [|done]. intros y z Hy Hz. apply Himp; by right.
Qed.

(** The order is kept when the list stays or loses a member and the
    frames left in it keep their oldest timestamp. *)
Lemma early_ordered_shrink s s' :
  new_frame_ s' = new_frame_ s ∨
  (∃ f l1 l2, new_frame_ s = l1 ++ f :: l2 ∧ new_frame_ s' = l1 ++ l2) →
  (∀ g, g ∈ new_frame_ s' → oldest_kept s' g = oldest_kept s g) →
  early_ordered s → early_ordered s'.
Proof.
  unfold early_ordered. intros Hlist Hkeep Hs.
  apply (StronglySorted_ext_in (λ f g, oldest_kept s g < oldest_kept s f)).
  { intros x y Hx Hy. by rewrite !Hkeep. }
  destruct Hlist as [->|(f & l1 & l2 & Hnf & ->)]; [done|].
  rewrite Hnf in Hs.
  apply StronglySorted_app in Hs as (H12 & Hs1 & [_ Hs2]%StronglySorted_cons).
  apply StronglySorted_app. split_and!; [|done..].
  intros x y Hx Hy. apply H12; [done|by right].
Qed.

Lemma oldest_kept_other s s' f h g :
  hist s' = <[f := h]> (hist s) → g ≠ f →
  oldest_kept s' g = oldest_kept s g.
Proof.
  intros Hh Hg. unfold oldest_kept, history_of.
  by rewrite Hh, at_default_insert_ne.
Qed.

Lemma oldest_kept_same s s' g :
  hist s' = hist s → oldest_kept s' g = oldest_kept s g.
Proof. intros Hh. unfold oldest_kept, history_of. by rewrite Hh. Qed.

Lemma SetEvictable_lists s f b s' :
  state_after (SetEvictable f b s) = Some s' →
  hist s' = hist s ∧ new_frame_ s' = new_frame_ s.
Proof.
  unfold SetEvictable. repeat case_match; by intros [= <-].
Qed.

Lemma do_call_early_ordered c s s' :
  wf s → current_timestamp_ s + 1 < size_t_modulus →
  timestamps_ok s → early_ordered s →
  do_call c s = Some s' → early_ordered s'.
Proof.
  intros Hwf Hclock (Hbound & _ & _) Hord.
  pose proof (wf_nodup s Hwf) as Hnd.
  apply NoDup_app in Hnd as (Hnd & Hdisj & _).
  destruct c as [f|f b| |f]; simpl.
  - destruct (Z.lt_ge_cases (static_cast_frame_id_t (replacer_size_ s)) f)
      as [Hf|Hf].
    { destruct (above_capacity_throws s f true Hf) as [-> _].
      by intros [= <-]. }
    destruct (RecordAccess_summary s f Hwf Hclock Hf)
      as (o & Hcall & _ & _ & _ & Hhist & _).
    destruct (RecordAccess_early_set s f Hwf Hclock Hf)
      as (o' & Hcall' & Hlist).
    rewrite Hcall in Hcall'. injection Hcall' as <-.
    rewrite Hcall. intros [= <-].
    destruct Hlist as [(Hzero & Hk & Hnf)|[[Hnf Hin]|(l1 & l2 & Hnf & Hnf')]].
    + unfold early_ordered. rewrite Hnf.
      assert (oldest_kept o f = current_timestamp_ s + 1) as Hnew.
      { unfold oldest_kept, history_of. rewrite Hhist, at_default_insert_eq.
        fold (history_of s f). rewrite (history_of_untracked s f Hwf Hzero).
        by rewrite bool_decide_eq_false_2 by lia. }
      assert (∀ g, g ∈ new_frame_ s →
                oldest_kept o g = oldest_kept s g ∧
                oldest_kept s g ≤ current_timestamp_ s) as Hold.
      { intros g Hg. apply (wf_early s Hwf) in Hg as Hc.
        split; [apply (oldest_kept_other _ _ _ _ _ Hhist); intros ->; lia|].
        destruct (history_of_tracked s g Hwf ltac:(lia)) as (t & h & Hh).
        unfold oldest_kept. rewrite Hh. simpl.
        apply (Hbound g t). rewrite Hh. by left. }
      apply StronglySorted_cons. split.
      * apply Forall_forall. intros g Hg.
        destruct (Hold g Hg) as [-> Hle]. lia.
      * apply (StronglySorted_ext_in
                 (λ f g, oldest_kept s g < oldest_kept s f)); [|done].
        intros x y Hx Hy.
        destruct (Hold x Hx) as [-> _], (Hold y Hy) as [-> _]. done.
    + apply (early_ordered_shrink s); [by left| |done].
      intros g Hg. rewrite Hnf in Hg.
      destruct (decide (g = f)) as [->|Hne];
        [|by apply (oldest_kept_other _ _ _ _ _ Hhist)].
      apply (wf_early s Hwf) in Hg as Hc. specialize (Hin Hg).
      destruct (history_of_tracked s f Hwf ltac:(lia)) as (t & h & Hh).
      unfold oldest_kept at 1. unfold history_of at 1.
      rewrite Hhist, at_default_insert_eq.
      rewrite bool_decide_eq_false_2 by lia.
      unfold oldest_kept. by rewrite Hh.
    + apply (early_ordered_shrink s); [right; by exists f, l1, l2| |done].
      intros g Hg. rewrite Hnf' in Hg.
      apply (oldest_kept_other _ _ _ _ _ Hhist). intros ->.
      by destruct (list_unlink _ l1 l2 f Hnf Hnd) as (_ & Hout & _).
  - intros [Hh Hnf]%SetEvictable_lists.
    apply (early_ordered_shrink s); [by left| |done].
    intros g _. by apply oldest_kept_same.
  - destruct (Evict_cases s Hwf) as
      [[_ ->]|[(f & l1 & l2 & Hnf & _ & _ & ->)
              |(f & t & l1 & l2 & _ & Hcf & _ & _ & ->)]];
      simpl; intros [= <-]; [done| |].
    + apply (early_ordered_shrink s); [right; by exists f, l1, l2| |done].
      simpl. intros g Hg. apply (oldest_kept_other _ _ f []); [done|].
      intros ->. by destruct (list_unlink _ l1 l2 f Hnf Hnd) as (_ & Hout & _).
    + apply (early_ordered_shrink s); [by left| |done].
      simpl. intros g Hg. apply (oldest_kept_other _ _ f []); [done|].
      intros ->. apply (Hdisj f Hg). rewrite Hcf, fmap_app, fmap_cons.
      apply elem_of_middle. by left.
  - destruct (Remove_cases s f Hwf) as
      [[_ ->]|[(_ & _ & ->)|(_ & _ &
        [[_ ->]|[(l1 & l2 & _ & Hnf & ->)|(t & l1 & l2 & _ & Hcf & ->)]])]];
      simpl; intros [= <-]; [done|done|done| |].
    + apply (early_ordered_shrink s); [right; by exists f, l1, l2| |done].
      simpl. intros g Hg. apply (oldest_kept_other _ _ f []); [done|].
      intros ->. by destruct (list_unlink _ l1 l2 f Hnf Hnd) as (_ & Hout & _).
    + apply (early_ordered_shrink s); [by left| |done].
      simpl. intros g Hg. apply (oldest_kept_other _ _ f []); [done|].
      intros ->. apply (Hdisj f Hg). rewrite Hcf, fmap_app, fmap_cons.
      apply elem_of_middle. by left.
Qed.

Lemma reachable_early_ordered s :
  reachable s → timestamps_ok s ∧ early_ordered s.
Proof.
  intros (num_frames & k & cs & Hk & Hlen & Hrun).
  eapply (run_invariant (λ s, timestamps_ok s ∧ early_ordered s));
    [|by apply wf_new| | |exact Hrun].
  - intros c s1 s2 Hwf Hclock [Hok Hord] Hcall. split.
    + eapply timestamps_step; [by apply wf_clock|done|].
      by eapply do_call_history_step.
    + by eapply do_call_early_ordered.
  - split; [|constructor]. split_and!.
    + intros f t Hin. by apply not_elem_of_nil in Hin.
    + intros f. constructor.
    + intros f g t Hin. by apply not_elem_of_nil in Hin.
  - simpl. lia.
Qed.

(** X15 -- the replacement policy: the victim of [Evict] in a reachable
    state comes before every other evictable frame that is tracked.
    Against such a frame [g], the victim [f] either has fewer than [k]
    accesses while [g] has [k], or the two are in the same set and the
    oldest timestamp kept for [f] -- its first access in the Early Set,
    its Kth-back access in the Stable Set -- is the smaller one. *)
Theorem Evict_picks_oldest (s s' : LRUKReplacer) (f : Z) :
  reachable s → Evict s = Return (Some f) s' →
  ∀ g, g ∈ tracked s → is_evictable s g = true → g ≠ f →
    (count_of s f < k_ s ∧ k_ s ≤ count_of s g) ∨
    ((count_of s f < k_ s ↔ count_of s g < k_ s) ∧
     oldest_kept s f < oldest_kept s g).
Proof.
  intros Hreach Hcall g Hg Hev Hne.
  pose proof (reachable_wf s Hreach) as Hwf.
  destruct (reachable_early_ordered s Hreach) as [(_ & _ & Hown) Hord].
  pose proof (wf_nodup s Hwf) as Hnd.
  apply NoDup_app in Hnd as (_ & _ & Hnd).
  apply elem_of_app in Hg.
  destruct (Evict_cases s Hwf) as
    [[_ He]|[(f' & newer & older & Hnf & _ & Hold & He)
            |(f' & t & before & after & Hnew & Hcf & _ & Hbefore & He)]];
    rewrite He in Hcall; [done|..]; injection Hcall as -> _.
  - assert (1 ≤ count_of s f < k_ s) as Hc.
    { apply (wf_early s Hwf). rewrite Hnf. apply elem_of_middle. by left. }
    destruct Hg as [Hg|Hg%(wf_stable s Hwf)]; [|left; lia].
    right. split; [apply (wf_early s Hwf) in Hg; lia|].
    unfold early_ordered in Hord. rewrite Hnf in Hord, Hg.
    apply elem_of_app in Hg as [Hg|[->|Hg]%elem_of_cons]; [|done|].
    + apply (StronglySorted_app_1_elem_of _ _ _ g f Hord Hg). by left.
    + rewrite Forall_forall in Hold. rewrite (Hold g Hg) in Hev. done.
  - assert (k_ s ≤ count_of s f) as Hc.
    { apply (wf_stable s Hwf). rewrite Hcf, fmap_app, fmap_cons.
      apply elem_of_middle. by left. }
    destruct Hg as [Hg|Hg].
    { rewrite Forall_forall in Hnew. rewrite (Hnew g Hg) in Hev. done. }
    right. split; [apply (wf_stable s Hwf) in Hg; lia|].
    apply list_elem_of_fmap in Hg as ([g' u] & -> & Hgu). simpl in *.
    assert (StronglySorted (λ x y : k_time, x.2 < y.2) (cache_frame_ s))
      as Hs.
    { apply sorted_distinct_strict; [by apply wf_sorted|done|].
      intros [x a] [y b] Hp Hq Heq. simpl in *. subst b.
      apply (Hown x y a); apply head_Some_elem_of; by apply (wf_kth s Hwf). }
    assert (oldest_kept s f = t ∧ oldest_kept s g' = u) as [-> ->].
    { unfold oldest_kept.
      rewrite (wf_kth s Hwf g' u Hgu), (wf_kth s Hwf f t); [done|].
      rewrite Hcf. apply elem_of_middle. by left. }
    rewrite Hcf in Hs, Hgu.
    apply elem_of_app in Hgu as [Hgu|[[= -> ->]|Hgu]%elem_of_cons]; [|done|].
    + rewrite Forall_forall in Hbefore.
      specialize (Hbefore (g', u) Hgu). simpl in Hbefore. congruence.
    + apply StronglySorted_app_1_r, StronglySorted_cons in Hs as [Hall _].
      rewrite Forall_forall in Hall. apply (Hall (g', u) Hgu).
Qed.

Lemma Evict_picks_oldest_witness :
  Evict scenario_state =
    Return (Some 2) (state_of 7 2 (scenario ++ [CallEvict])) ∧
  ∀ g, g ∈ tracked scenario_state → is_evictable scenario_state g = true →
    g ≠ 2 →
    (count_of scenario_state 2 < k_ scenario_state ∧
     k_ scenario_state ≤ count_of scenario_state g) ∨
    ((count_of scenario_state 2 < k_ scenario_state ↔
      count_of scenario_state g < k_ scenario_state) ∧
     oldest_kept scenario_state 2 < oldest_kept scenario_state g).
Proof.
  split; [vm_compute; reflexivity|].
  apply (Evict_picks_oldest scenario_state
           (state_of 7 2 (scenario ++ [CallEvict])) 2).
  - reach 7 2 scenario.
  - vm_compute. reflexivity.
Defined.

(** ** The outcome of [Remove] *)

(** X16 -- what decides the outcome of [Remove] in a reachable state is
    the range check and the frame's flag alone.  With an id that passes
    the check and a set flag the call returns normally, the frame's count
    is zero afterwards and [Size()] has dropped by one if the frame was
    tracked; otherwise the call throws, and no flag, count, history, list
    or size reads differently afterwards. *)
Theorem Remove_returns_iff_flag_set (s : LRUKReplacer) (f : Z) :
  reachable s →
  (f ≤ static_cast_frame_id_t (replacer_size_ s) ∧
   is_evictable s f = true ∧
   ∃ s', Remove f s = Return tt s' ∧ count_of s' f = 0 ∧
         Size s' = Size s - Z.b2z (bool_decide (1 ≤ count_of s f))) ∨
  ((static_cast_frame_id_t (replacer_size_ s) < f ∨
    is_evictable s f = false) ∧
   ∃ s', Remove f s = Throw s' ∧
         (∀ g, is_evictable s' g = is_evictable s g ∧
               count_of s' g = count_of s g ∧
               history_of s' g = history_of s g) ∧
         new_frame_ s' = new_frame_ s ∧ cache_frame_ s' = cache_frame_ s ∧
         Size s' = Size s).
Proof.
  intros Hwf%reachable_wf. pose proof (wf_k s Hwf) as Hk.
  destruct (Remove_cases s f Hwf) as
    [[Hwhy ->]|[(Hf & Hnone & ->)|(Hf & Hev &
      [[Hz ->]|[(l1 & l2 & Hc & _ & ->)|(t & l1 & l2 & Hc & _ & ->)]])]].
  - right. split; [destruct Hwhy as [?|[_ ?]]; [by left|by right]|].
    by exists s.
  - assert (is_evictable s f = false) as Hev.
    { unfold is_evictable, at_default. by rewrite Hnone. }
    right. split; [by right|]. eexists. split; [done|].
    split_and!; [|done..]. intros g. split; [|done].
    unfold is_evictable in *. simpl. rewrite at_default_insert.
    by destruct (decide (f = g)) as [<-|].
  - left. split_and!; [done..|]. exists s. split_and!; [done..|].
    rewrite bool_decide_eq_false_2 by lia. simpl. lia.
  - left. split_and!; [done..|]. eexists. split; [done|].
    rewrite bool_decide_eq_true_2 by lia. split; [|done].
    observe. by rewrite at_default_insert_eq.
  - left. split_and!; [done..|]. eexists. split; [done|].
    rewrite bool_decide_eq_true_2 by lia. split; [|done].
    observe. by rewrite at_default_insert_eq.
Qed.

Lemma Remove_returns_iff_flag_set_witness :
  (2 ≤ static_cast_frame_id_t (replacer_size_ scenario_state) ∧
   is_evictable scenario_state 2 = true ∧
   ∃ s', Remove 2 scenario_state = Return tt s' ∧ count_of s' 2 = 0 ∧
         Size s' =
         Size scenario_state
         - Z.b2z (bool_decide (1 ≤ count_of scenario_state 2))) ∨
  ((static_cast_frame_id_t (replacer_size_ scenario_state) < 2 ∨
    is_evictable scenario_state 2 = false) ∧
   ∃ s', Remove 2 scenario_state = Throw s' ∧
         (∀ g, is_evictable s' g = is_evictable scenario_state g ∧
               count_of s' g = count_of scenario_state g ∧
               history_of s' g = history_of scenario_state g) ∧
         new_frame_ s' = new_frame_ scenario_state ∧
         cache_frame_ s' = cache_frame_ scenario_state ∧
         Size s' = Size scenario_state).
Proof.
  apply (Remove_returns_iff_flag_set scenario_state 2). reach 7 2 scenario.
Defined.
